(** * Kubernetes-style conditions: a shallow embedding of package [conditions]

    The development follows [conditions/conditions.go].

    - [sort]: the contract of Go's [sort.Slice], as a class, and the
      insertion sort that Go's [sort] package runs on short slices.
    - [conditions]: the value-level reading of the package.  A slice is the
      list of its elements, a pointer into a slice is an index, and the
      reading of [time.Now().UTC()] is an explicit argument [now].
    - [runtime]: the same functions over a store of backing arrays, with the
      accessor's [GetConditions] / [SetConditions] calls and every store to
      an array recorded in a trace.
    - [props]: the vocabulary of the statements.

    The lemmas come after the definitions: the comparator, the sort, lookup
    and update of one entry, the public helpers, the invariants of the set,
    and the store-level helpers, which compute what the value-level ones
    compute and write nothing but their own copy. *)

From Stdlib Require Import ZArith String Ascii List Permutation Lia Bool.
From Stdlib Require Import Sorting.Sorted.
From stdpp Require Import base tactics option list sorting strings.

Local Open Scope string_scope.
Local Open Scope list_scope.

(* ====================================================================== *)
(** ** Package [sort]: the contract of [sort.Slice] *)
(* ====================================================================== *)

Module sort.

(** What [sort.Slice] asks of its [less]: a strict weak ordering. *)
Record StrictWeakOrder {A : Type} (less : A -> A -> bool) : Prop := {
  swo_irrefl : forall a, less a a = false;
  swo_trans : forall a b c, less a b = true -> less b c = true -> less a c = true;
  swo_incomp : forall a b c, less a b = false -> less b c = false -> less a c = false
}.

(** [a] may stand before [b] in a slice sorted by [less]. *)
Definition ordered {A : Type} (less : A -> A -> bool) : A -> A -> Prop :=
  fun a b => less b a = false.

(** [sort.Slice]: it only swaps elements, so the result is a permutation of
    the argument whatever [less] is; for a strict weak ordering the result is
    sorted.  The sort is not promised to be stable, and nothing here says
    where elements that [less] does not separate end up. *)
Class Sorter := {
  Slice : forall {A : Type}, (A -> A -> bool) -> list A -> list A;
  Slice_permutation : forall (A : Type) (less : A -> A -> bool) (l : list A),
      Permutation l (Slice less l);
  Slice_sorted : forall (A : Type) (less : A -> A -> bool),
      StrictWeakOrder less ->
      forall l : list A, StronglySorted (ordered less) (Slice less l)
}.

(** [insertionSortLessFunc], which [sort.Slice] runs on a short slice (of at
    most twelve elements since Go 1.19; before, of fewer than seven).  On a
    set with unique Types the choice of the algorithm does not matter, see
    [sortConditions_any_sorter].
<<
    for i := a + 1; i < b; i++ {
        for j := i; j > a && data.Less(j, j-1); j-- { data.Swap(j, j-1) }
    }
>>
    [sink less x rp] is the inner loop: [rp] is the sorted prefix, last
    element first, and [x] moves left past every element it is less than. *)
Fixpoint sink {A : Type} (less : A -> A -> bool) (x : A) (rp : list A) : list A :=
  match rp with
  | [] => [x]
  | p :: rp' => if less x p then p :: sink less x rp' else x :: rp
  end.

Definition insertionSort {A : Type} (less : A -> A -> bool) (l : list A) : list A :=
  rev (fold_left (fun rp x => sink less x rp) l []).

End sort.

(* ====================================================================== *)
(** ** Package [conditions]: types, internal helpers, public helpers *)
(* ====================================================================== *)

Module conditions.

(** [type Type string].  [Type] is reserved in Rocq, hence [CType] for the
    type and [Type_] for the field. *)
Definition CType := string.

(** [const Ready Type = "Ready"] *)
Definition Ready : CType := "Ready".

(** [type ConditionStatus string] with its three constants.  Any other
    string is a value of the type too. *)
Definition ConditionStatus := string.
Definition True_ : ConditionStatus := "True".
Definition False_ : ConditionStatus := "False".
Definition Unknown : ConditionStatus := "Unknown".

(** [time.Time], as an instant on the UTC time line. *)
Definition Time := Z.

Record Condition := mkCondition {
  Type_ : CType;
  Status : ConditionStatus;
  Reason : string;
  Message : string;
  LastTransitionTime : Time
}.

(** The zero value of the struct (what unused array slots hold). *)
Definition zeroCondition : Condition := mkCondition "" "" "" "" 0%Z.

(* ---------------------------------------------------------------------- *)
(** *** Internal helpers *)

Definition lexicographicLess (a b : Condition) : bool :=
  if String.eqb (Type_ a) Ready && negb (String.eqb (Type_ b) Ready) then true
  else if String.eqb (Type_ b) Ready && negb (String.eqb (Type_ a) Ready) then false
  else String.ltb (Type_ a) (Type_ b).

(** [get] returns a pointer to the first condition of the requested type,
    or nil.  A pointer into the slice is the index of its element. *)
Fixpoint get (conds : list Condition) (t : CType) : option nat :=
  match conds with
  | [] => None
  | c :: rest => if String.eqb (Type_ c) t then Some 0 else S <$> get rest t
  end.

(** The branch of [set] before the sort: update the entry [get] points to,
    or append a new one. *)
Definition upsert (now : Time) (conds : list Condition) (t : CType)
    (s : ConditionStatus) (reason msg : string) : list Condition :=
  match get conds t with
  | Some p =>
      match conds !! p with
      | Some cond =>
          let ltt := if negb (String.eqb (Reason cond) reason)
                     then now else LastTransitionTime cond in
          <[p := mkCondition (Type_ cond) s reason msg ltt]> conds
      | None => conds
      end
  | None => conds ++ [mkCondition t s reason msg now]
  end.

(** The scan of [SyncReady]: reason and message of the first entry, in slice
    order, that is not [Ready] and whose status is [False]. *)
Fixpoint firstFalse (conds : list Condition) : option (string * string) :=
  match conds with
  | [] => None
  | c :: rest =>
      if String.eqb (Type_ c) Ready then firstFalse rest
      else if String.eqb (Status c) False_ then Some (Reason c, Message c)
      else firstFalse rest
  end.

(** [ConditionsAccessor]: the interface a status type implements.  The law
    is what the documented typical implementation gives: a read returns
    what was last written. *)
Class ConditionsAccessor (O : Type) := {
  GetConditions : O -> list Condition;
  SetConditions : list Condition -> O -> O;
  Get_SetConditions : forall c o, GetConditions (SetConditions c o) = c
}.

(** The typical implementation (the test file's [stub]). *)
Record stub := mkStub { conds : list Condition }.

#[export] Instance stub_accessor : ConditionsAccessor stub := {|
  GetConditions s := conds s;
  SetConditions c _ := mkStub c;
  Get_SetConditions := fun c o => eq_refl
|}.

Section helpers.
Context `{!sort.Sorter}.

Definition sortConditions (conds : list Condition) : list Condition :=
  sort.Slice lexicographicLess conds.

(** [set] creates or updates a condition, then sorts the slice. *)
Definition set (now : Time) (conds : list Condition) (t : CType)
    (s : ConditionStatus) (reason msg : string) : list Condition :=
  sortConditions (upsert now conds t s reason msg).

Context {O : Type} `{!ConditionsAccessor O}.

(* ---------------------------------------------------------------------- *)
(** *** Public helper functions *)

Definition MarkTrue (now : Time) (obj : O) (t : CType) : O :=
  let conds := GetConditions obj in
  SetConditions (set now conds t True_ "" "") obj.

Definition MarkFalse (now : Time) (obj : O) (t : CType) (reason msg : string) : O :=
  let conds := GetConditions obj in
  SetConditions (set now conds t False_ reason msg) obj.

Definition MarkUnknown (now : Time) (obj : O) (t : CType) (reason msg : string) : O :=
  let conds := GetConditions obj in
  SetConditions (set now conds t Unknown reason msg) obj.

Definition IsTrue (obj : O) (t : CType) : bool :=
  let conds := GetConditions obj in
  match get conds t with
  | Some p =>
      match conds !! p with
      | Some c => String.eqb (Status c) True_
      | None => false
      end
  | None => false
  end.

Definition SyncReady (now : Time) (obj : O) : O :=
  let conds := GetConditions obj in
  match firstFalse conds with
  | Some (falseReason, falseMessage) =>
      SetConditions (set now conds Ready False_ falseReason falseMessage) obj
  | None =>
      SetConditions (set now conds Ready True_ "" "") obj
  end.

(** A call of one of the mutating helpers, and a history of calls, each
    with the clock reading it sees. *)
Inductive Call :=
| CallMarkTrue (t : CType)
| CallMarkFalse (t : CType) (reason msg : string)
| CallMarkUnknown (t : CType) (reason msg : string)
| CallSyncReady.

Definition call (now : Time) (obj : O) (c : Call) : O :=
  match c with
  | CallMarkTrue t => MarkTrue now obj t
  | CallMarkFalse t reason msg => MarkFalse now obj t reason msg
  | CallMarkUnknown t reason msg => MarkUnknown now obj t reason msg
  | CallSyncReady => SyncReady now obj
  end.

Definition calls (history : list (Time * Call)) (obj : O) : O :=
  fold_left (fun o nc => call (fst nc) o (snd nc)) history obj.

End helpers.

End conditions.

(* ====================================================================== *)
(** ** The helpers over a store of backing arrays *)
(* ====================================================================== *)

Module runtime.
Import conditions.

(** A slice header: the address of its backing array (the array's index
    in the store) and its length.  Every slice of the
    package starts at the first cell of its array, so its capacity is the
    length of the array.  [nil_slice] is Go's nil slice. *)
Inductive slice :=
| nil_slice
| mk_slice (a : nat) (len : nat).

(** The store: the backing arrays, by address, and the slice header that
    the accessor holds (the [conds] field of the test file's [stub]). *)
Record world := mkWorld {
  arrays : list (list Condition);
  held : slice
}.

(** What a helper does to the store and to the accessor. *)
Inductive event :=
| EvGetConditions
| EvSetConditions (s : slice)
| EvAlloc (cells : list Condition)
| EvStore (a : nat) (i : nat) (c : Condition)
| EvSort (a : nat) (n : nat).

(** The capacity the Go runtime gives a new backing array, from the old
    capacity and the length asked for: at least that length. *)
Class Allocator := {
  newcap : nat -> nat -> nat;
  newcap_ge : forall old n, n <= newcap old n
}.

(** An allocator for evaluation: twice the old capacity, or the length
    asked for where that is more. *)
#[export] Instance doubling : Allocator := {|
  newcap old n := Nat.max n (2 * old);
  newcap_ge := fun old n => Nat.le_max_l n (2 * old)
|}.

Definition cells_at (w : world) (a : nat) : list Condition :=
  default [] (arrays w !! a).

(** The elements of a slice. *)
Definition contents (w : world) (s : slice) : list Condition :=
  match s with
  | nil_slice => []
  | mk_slice a n => take n (cells_at w a)
  end.

Definition capacity (w : world) (s : slice) : nat :=
  match s with
  | nil_slice => 0
  | mk_slice a _ => length (cells_at w a)
  end.

(** The header points into the store. *)
Definition valid (w : world) (s : slice) : Prop :=
  match s with
  | nil_slice => True
  | mk_slice a n => a < length (arrays w) /\ n <= length (cells_at w a)
  end.

(** The set the accessor shows. *)
Definition visible (w : world) : list Condition := contents w (held w).

(** [xs] followed by zero values up to capacity [cap]. *)
Definition padded (cap : nat) (xs : list Condition) : list Condition :=
  xs ++ replicate (cap - length xs) zeroCondition.

Definition with_LastTransitionTime (now : Time) (c : Condition) : Condition :=
  mkCondition (Type_ c) (Status c) (Reason c) (Message c) now.
Definition with_Status (s : ConditionStatus) (c : Condition) : Condition :=
  mkCondition (Type_ c) s (Reason c) (Message c) (LastTransitionTime c).
Definition with_Reason (reason : string) (c : Condition) : Condition :=
  mkCondition (Type_ c) (Status c) reason (Message c) (LastTransitionTime c).
Definition with_Message (msg : string) (c : Condition) : Condition :=
  mkCondition (Type_ c) (Status c) (Reason c) msg (LastTransitionTime c).

(** Events that touch neither the accessor nor an array below [base]. *)
Definition private (base : nat) (e : event) : Prop :=
  match e with
  | EvGetConditions | EvSetConditions _ => False
  | EvAlloc _ => True
  | EvStore a _ _ | EvSort a _ => base <= a
  end.

Definition is_Get (e : event) : bool :=
  match e with EvGetConditions => true | _ => false end.
Definition is_Set (e : event) : bool :=
  match e with EvSetConditions _ => true | _ => false end.

Section machine.
Context `{!sort.Sorter} `{!Allocator}.

Definition apply_event (e : event) (w : world) : world :=
  match e with
  | EvGetConditions => w
  | EvSetConditions s => mkWorld (arrays w) s
  | EvAlloc cells => mkWorld (arrays w ++ [cells]) (held w)
  | EvStore a i c => mkWorld (alter (fun cells => <[i := c]> cells) a (arrays w)) (held w)
  | EvSort a n =>
      mkWorld (alter (fun cells => sortConditions (take n cells) ++ drop n cells)
                 a (arrays w)) (held w)
  end.

Definition replay (tr : list event) (w : world) : world :=
  fold_left (fun w e => apply_event e w) tr w.

(** A computation: from a store to a result, the store after it, and the
    events in the order they happened. *)
Definition M (A : Type) : Type := world -> A * world * list event.

#[export] Instance M_ret : MRet M := fun A a w => (a, w, []).

#[export] Instance M_bind : MBind M := fun A B f m w =>
  let '(a, w1, t1) := m w in
  let '(b, w2, t2) := f a w1 in
  (b, w2, t1 ++ t2).

Definition emit (e : event) : M unit := fun w => (tt, apply_event e w, [e]).

Definition inspect {A : Type} (f : world -> A) : M A := fun w => (f w, w, []).

(** The accessor of the test file's [stub]. *)
Definition GetConditions_io : M slice := emit EvGetConditions;; inspect held.

Definition SetConditions_io (s : slice) : M unit := emit (EvSetConditions s).

Definition alloc (cells : list Condition) : M nat :=
  a ← inspect (fun w => length (arrays w));
  emit (EvAlloc cells);;
  mret a.

(** [s[i]] and [s[i] = c]. *)
Definition load (s : slice) (i : nat) : M Condition :=
  inspect (fun w => default zeroCondition (contents w s !! i)).

Definition store (s : slice) (i : nat) (c : Condition) : M unit :=
  match s with
  | nil_slice => mret tt
  | mk_slice a _ => emit (EvStore a i c)
  end.

(** An assignment to one field through a pointer to [s[i]]. *)
Definition modify (s : slice) (i : nat) (f : Condition -> Condition) : M unit :=
  c ← load s i; store s i (f c).

(** [append([]Condition(nil), s...)] *)
Definition append_to_nil (s : slice) : M slice :=
  xs ← inspect (fun w => contents w s);
  match xs with
  | [] => mret nil_slice
  | _ :: _ =>
      a ← alloc (padded (newcap 0 (length xs)) xs);
      mret (mk_slice a (length xs))
  end.

(** [append(s, c)]: in place where the capacity allows, else into a new
    array. *)
Definition append (s : slice) (c : Condition) : M slice :=
  match s with
  | nil_slice =>
      a ← alloc (padded (newcap 0 1) [c]);
      mret (mk_slice a 1)
  | mk_slice a n =>
      cap ← inspect (fun w => capacity w s);
      if decide (n < cap) then
        emit (EvStore a n c);;
        mret (mk_slice a (S n))
      else
        xs ← inspect (fun w => contents w s);
        a' ← alloc (padded (newcap cap (S n)) (xs ++ [c]));
        mret (mk_slice a' (S n))
  end.

Definition sortConditions_io (s : slice) : M unit :=
  match s with
  | nil_slice => mret tt
  | mk_slice a n => emit (EvSort a n)
  end.

Definition get_io (s : slice) (t : CType) : M (option nat) :=
  inspect (fun w => get (contents w s) t).

Definition set_io (now : Time) (conds : slice) (t : CType)
    (s : ConditionStatus) (reason msg : string) : M slice :=
  p ← get_io conds t;
  conds ← match p with
          | Some p =>
              cond ← load conds p;
              (if negb (String.eqb (Reason cond) reason)
               then modify conds p (with_LastTransitionTime now)
               else mret tt);;
              modify conds p (with_Status s);;
              modify conds p (with_Reason reason);;
              modify conds p (with_Message msg);;
              mret conds
          | None => append conds (mkCondition t s reason msg now)
          end;
  sortConditions_io conds;;
  mret conds.

Definition MarkTrue_io (now : Time) (t : CType) : M unit :=
  got ← GetConditions_io;
  conds ← append_to_nil got;
  conds ← set_io now conds t True_ "" "";
  SetConditions_io conds.

Definition MarkFalse_io (now : Time) (t : CType) (reason msg : string) : M unit :=
  got ← GetConditions_io;
  conds ← append_to_nil got;
  conds ← set_io now conds t False_ reason msg;
  SetConditions_io conds.

Definition MarkUnknown_io (now : Time) (t : CType) (reason msg : string) : M unit :=
  got ← GetConditions_io;
  conds ← append_to_nil got;
  conds ← set_io now conds t Unknown reason msg;
  SetConditions_io conds.

Definition IsTrue_io (t : CType) : M bool :=
  conds ← GetConditions_io;
  c ← get_io conds t;
  match c with
  | Some p => cond ← load conds p; mret (String.eqb (Status cond) True_)
  | None => mret false
  end.

Definition SyncReady_io (now : Time) : M unit :=
  got ← GetConditions_io;
  conds ← append_to_nil got;
  found ← inspect (fun w => firstFalse (contents w conds));
  conds ← match found with
          | Some (falseReason, falseMessage) =>
              set_io now conds Ready False_ falseReason falseMessage
          | None => set_io now conds Ready True_ "" ""
          end;
  SetConditions_io conds.

(** What a helper that writes the set [f old] back must do from [w]: one
    [GetConditions], then events that touch neither the accessor nor any
    array that existed in [w], then one [SetConditions], last, of a slice
    in a new array that holds [f old].  At every point of the run the
    accessor shows the old set, or, once the run is over, the new one. *)
Definition copy_on_write (m : M unit) (f : list Condition -> list Condition)
    (w : world) : Prop :=
  match m w with
  | (_, w', tr) =>
      let base := length (arrays w) in
      exists mid s',
        tr = EvGetConditions :: mid ++ [EvSetConditions s'] /\
        Forall (private base) mid /\
        length (List.filter is_Get tr) = 1 /\
        length (List.filter is_Set tr) = 1 /\
        w' = replay tr w /\
        (forall a, a < base -> arrays w' !! a = arrays w !! a) /\
        (exists a n, s' = mk_slice a n /\ base <= a) /\
        held w' = s' /\
        visible w' = f (visible w) /\
        (forall tr1 tr2, tr = tr1 ++ tr2 ->
           visible (replay tr1 w) = visible w \/
           (tr2 = [] /\ visible (replay tr1 w) = f (visible w)))
  end.

End machine.

End runtime.

(* ====================================================================== *)
(** ** Vocabulary of the statements *)
(* ====================================================================== *)

Module props.
Import conditions.

(** The condition [get] points to. *)
Definition entry (conds : list Condition) (t : CType) : option Condition :=
  match get conds t with
  | Some p => conds !! p
  | None => None
  end.

(** The entry that [upsert] writes over [old], or appends. *)
Definition written (now : Time) (old : option Condition) (t : CType)
    (s : ConditionStatus) (reason msg : string) : Condition :=
  match old with
  | Some c =>
      mkCondition t s reason msg
        (if negb (String.eqb (Reason c) reason) then now else LastTransitionTime c)
  | None => mkCondition t s reason msg now
  end.

Definition has_type (t : CType) (c : Condition) : Prop := Type_ c = t.

#[export] Instance has_type_dec (t : CType) (c : Condition) : Decision (has_type t c).
Proof. unfold has_type. apply _. Defined.

(** At most one entry of type [t]. *)
Definition unique_type (t : CType) (conds : list Condition) : Prop :=
  length (filter (has_type t) conds) <= 1.

(** No entry that blocks readiness: every entry is [Ready] itself or has a
    status other than [False]. *)
Definition no_False (conds : list Condition) : Prop :=
  Forall (fun x => Type_ x = Ready \/ Status x <> False_) conds.

(** The change-detection rule for the entry of type [t], between the set
    before a mark with [reason] at time [now] and the set after it. *)
Definition transition_rule (now : Time) (before after : list Condition)
    (t : CType) (reason : string) : Prop :=
  match entry before t with
  | Some old =>
      exists new, entry after t = Some new /\
        LastTransitionTime new =
          (if String.eqb (Reason old) reason then LastTransitionTime old else now) /\
        (reason = Reason old -> LastTransitionTime new = LastTransitionTime old) /\
        ((LastTransitionTime old < now)%Z ->
           (reason <> Reason old ->
              (LastTransitionTime old < LastTransitionTime new)%Z) /\
           (LastTransitionTime new = now <-> reason <> Reason old))
  | None => exists new, entry after t = Some new /\ LastTransitionTime new = now
  end.

(** Nothing is deleted, and entries of a type other than [t] are the same
    before and after. *)
Definition preserved (t : CType) (before after : list Condition) : Prop :=
  (forall c, c ∈ before -> exists c', c' ∈ after /\ Type_ c' = Type_ c) /\
  (forall c, c ∈ before -> Type_ c <> t -> c ∈ after) /\
  filter (fun x => ~ has_type t x) after ≡ₚ filter (fun x => ~ has_type t x) before.

(** The order of a set as the helpers leave it: the [Ready] entry, if
    there is one, stands first, and the entries after it (all of them,
    where there is none) are not [Ready] and strictly ascend by Type. *)
Definition sort_invariant (conds : list Condition) : Prop :=
  exists rest,
    (conds = rest \/ exists r, Type_ r = Ready /\ conds = r :: rest) /\
    Forall (fun c => Type_ c <> Ready) rest /\
    StronglySorted (fun a b => String.ltb (Type_ a) (Type_ b) = true) rest.

(** Sorted by [lexicographicLess], no two entries of one Type. *)
Definition well_formed (conds : list Condition) : Prop :=
  NoDup (map Type_ conds) /\
  StronglySorted (sort.ordered lexicographicLess) conds.

End props.

(* ====================================================================== *)
(** ** Byte-wise order on strings *)
(* ====================================================================== *)

(** Go compares strings byte by byte; [String.ltb] does the same on the
    8-bit characters of a Rocq [string]. *)
Module StrOrd.

Lemma ascii_compare_refl (a : ascii) : Ascii.compare a a = Eq.
Proof. unfold Ascii.compare. apply N.compare_refl. Qed.

Lemma ascii_compare_lt_trans (a b c : ascii) :
  Ascii.compare a b = Lt -> Ascii.compare b c = Lt -> Ascii.compare a c = Lt.
Proof.
  unfold Ascii.compare. rewrite !N.compare_lt_iff. lia.
Qed.

Lemma compare_refl (s : string) : String.compare s s = Eq.
Proof.
  induction s as [|a s IH]; simpl; [reflexivity|].
  now rewrite ascii_compare_refl.
Qed.

Lemma compare_lt_trans (s1 : string) :
  forall s2 s3, String.compare s1 s2 = Lt -> String.compare s2 s3 = Lt ->
                String.compare s1 s3 = Lt.
Proof.
  induction s1 as [|a s1 IH]; intros [|b s2] [|c s3]; simpl; try congruence.
  destruct (Ascii.compare a b) eqn:Hab; try discriminate;
    destruct (Ascii.compare b c) eqn:Hbc; try discriminate; intros H1 H2.
  - apply Ascii.compare_eq_iff in Hab, Hbc. subst.
    rewrite ascii_compare_refl. eauto.
  - apply Ascii.compare_eq_iff in Hab. subst. now rewrite Hbc.
  - apply Ascii.compare_eq_iff in Hbc. subst. now rewrite Hab.
  - now rewrite (ascii_compare_lt_trans _ _ _ Hab Hbc).
Qed.

Lemma ltb_irrefl (s : string) : String.ltb s s = false.
Proof. unfold String.ltb. now rewrite compare_refl. Qed.

Lemma ltb_trans (s1 s2 s3 : string) :
  String.ltb s1 s2 = true -> String.ltb s2 s3 = true -> String.ltb s1 s3 = true.
Proof.
  unfold String.ltb.
  destruct (String.compare s1 s2) eqn:H12; try discriminate.
  destruct (String.compare s2 s3) eqn:H23; try discriminate.
  now rewrite (compare_lt_trans _ _ _ H12 H23).
Qed.

Lemma ltb_asym (s1 s2 : string) :
  String.ltb s1 s2 = true -> String.ltb s2 s1 = false.
Proof.
  unfold String.ltb. rewrite (String.compare_antisym s2 s1).
  destruct (String.compare s1 s2); simpl; congruence.
Qed.

Lemma ltb_total (s1 s2 : string) :
  s1 <> s2 -> String.ltb s1 s2 = true \/ String.ltb s2 s1 = true.
Proof.
  intros Hne. unfold String.ltb. rewrite (String.compare_antisym s2 s1).
  destruct (String.compare s1 s2) eqn:H; simpl; auto.
  apply String.compare_eq_iff in H. contradiction.
Qed.

End StrOrd.

(* ====================================================================== *)
(** ** The comparator *)
(* ====================================================================== *)

Module less_facts.
Import conditions.

Lemma ltb_false_inv (s1 s2 : string) :
  String.ltb s1 s2 = false -> s1 = s2 \/ String.ltb s2 s1 = true.
Proof.
  intros H. destruct (String.eqb_spec s1 s2) as [->|Hne]; [now left|right].
  destruct (StrOrd.ltb_total s1 s2 Hne); congruence.
Qed.

Lemma ltb_negtrans (s1 s2 s3 : string) :
  String.ltb s1 s2 = false -> String.ltb s2 s3 = false -> String.ltb s1 s3 = false.
Proof.
  intros H12 H23.
  destruct (ltb_false_inv _ _ H12) as [->|H21]; [assumption|].
  destruct (ltb_false_inv _ _ H23) as [->|H32]; [assumption|].
  apply StrOrd.ltb_asym. eapply StrOrd.ltb_trans; eassumption.
Qed.

(** The three cases of [lexicographicLess], by whether each side is [Ready]. *)
Lemma less_Ready_l (a b : Condition) :
  Type_ a = Ready -> Type_ b <> Ready -> lexicographicLess a b = true.
Proof.
  intros Ha Hb. unfold lexicographicLess.
  apply String.eqb_eq in Ha. apply String.eqb_neq in Hb. now rewrite Ha, Hb.
Qed.

Lemma less_Ready_r (a b : Condition) :
  Type_ b = Ready -> lexicographicLess a b = false.
Proof.
  intros Hb. unfold lexicographicLess.
  destruct (String.eqb_spec (Type_ a) Ready) as [Ha|Ha];
    destruct (String.eqb_spec (Type_ b) Ready) as [_|Hb']; try contradiction; simpl.
  - rewrite Ha, Hb. apply StrOrd.ltb_irrefl.
  - reflexivity.
Qed.

Lemma less_other (a b : Condition) :
  Type_ a <> Ready -> Type_ b <> Ready ->
  lexicographicLess a b = String.ltb (Type_ a) (Type_ b).
Proof.
  intros Ha Hb. unfold lexicographicLess.
  apply String.eqb_neq in Ha. apply String.eqb_neq in Hb. now rewrite Ha, Hb.
Qed.

Lemma less_true_inv (a b : Condition) :
  lexicographicLess a b = true ->
  Type_ b <> Ready /\
  (Type_ a = Ready \/ (Type_ a <> Ready /\ String.ltb (Type_ a) (Type_ b) = true)).
Proof.
  intros H.
  destruct (String.eqb_spec (Type_ b) Ready) as [Hb|Hb].
  - rewrite (less_Ready_r a b Hb) in H. discriminate.
  - split; [assumption|].
    destruct (String.eqb_spec (Type_ a) Ready) as [Ha|Ha]; [now left|right].
    rewrite (less_other a b Ha Hb) in H. auto.
Qed.

Lemma less_irrefl (a : Condition) : lexicographicLess a a = false.
Proof.
  destruct (String.eqb_spec (Type_ a) Ready) as [Ha|Ha].
  - now apply less_Ready_r.
  - rewrite less_other by assumption. apply StrOrd.ltb_irrefl.
Qed.

Lemma less_trans (a b c : Condition) :
  lexicographicLess a b = true -> lexicographicLess b c = true ->
  lexicographicLess a c = true.
Proof.
  intros Hab Hbc.
  apply less_true_inv in Hab as [Hb Hab]. apply less_true_inv in Hbc as [Hc Hbc].
  destruct Hbc as [Hbc|[_ Hbc]]; [contradiction|].
  destruct Hab as [Ha|[Ha Hab]].
  - now apply less_Ready_l.
  - rewrite less_other by assumption. eapply StrOrd.ltb_trans; eassumption.
Qed.

Lemma less_same_type (a b : Condition) :
  Type_ a = Type_ b -> lexicographicLess a b = false.
Proof.
  intros Hab.
  destruct (String.eqb_spec (Type_ b) Ready) as [Hb|Hb].
  - now apply less_Ready_r.
  - rewrite less_other by congruence. rewrite Hab. apply StrOrd.ltb_irrefl.
Qed.

Lemma less_total (a b : Condition) :
  Type_ a <> Type_ b ->
  lexicographicLess a b = true \/ lexicographicLess b a = true.
Proof.
  intros Hne.
  destruct (String.eqb_spec (Type_ a) Ready) as [Ha|Ha];
    destruct (String.eqb_spec (Type_ b) Ready) as [Hb|Hb].
  - congruence.
  - left. now apply less_Ready_l.
  - right. now apply less_Ready_l.
  - rewrite !less_other by assumption. now apply StrOrd.ltb_total.
Qed.

Lemma less_asym (a b : Condition) :
  lexicographicLess a b = true -> lexicographicLess b a = false.
Proof.
  intros Hab. destruct (lexicographicLess b a) eqn:Hba; [|reflexivity].
  pose proof (less_trans _ _ _ Hab Hba) as H. rewrite less_irrefl in H. discriminate.
Qed.

Lemma less_false_inv (a b : Condition) :
  lexicographicLess a b = false ->
  Type_ a = Type_ b \/ lexicographicLess b a = true.
Proof.
  intros H. destruct (String.eqb_spec (Type_ a) (Type_ b)) as [Heq|Hne]; [now left|].
  destruct (less_total a b Hne); [congruence|now right].
Qed.

Lemma less_type_l (a a' b : Condition) :
  Type_ a = Type_ a' -> lexicographicLess a b = lexicographicLess a' b.
Proof. intros H. unfold lexicographicLess. now rewrite H. Qed.

Lemma less_type_r (a b b' : Condition) :
  Type_ b = Type_ b' -> lexicographicLess a b = lexicographicLess a b'.
Proof. intros H. unfold lexicographicLess. now rewrite H. Qed.

Lemma less_negtrans (a b c : Condition) :
  lexicographicLess a b = false -> lexicographicLess b c = false ->
  lexicographicLess a c = false.
Proof.
  intros Hab Hbc.
  destruct (less_false_inv _ _ Hab) as [Heq|Hba].
  - now rewrite (less_type_l a b c Heq).
  - destruct (less_false_inv _ _ Hbc) as [Heq|Hcb].
    + now rewrite <- (less_type_r a b c Heq).
    + apply less_asym. eapply less_trans; eassumption.
Qed.

Lemma lexicographicLess_swo : sort.StrictWeakOrder lexicographicLess.
Proof.
  constructor.
  - apply less_irrefl.
  - apply less_trans.
  - apply less_negtrans.
Qed.

(** C8.  [lexicographicLess] is a strict total order on conditions with
    distinct Types: it is irreflexive and transitive, of two conditions
    with distinct Types exactly one is less than the other, a [Ready]
    condition is less than every condition of another Type, and two
    conditions that are not [Ready] compare as their Type strings do,
    byte by byte. *)
Theorem lexicographicLess_strict_total_order :
  (forall a, lexicographicLess a a = false) /\
  (forall a b c, lexicographicLess a b = true -> lexicographicLess b c = true ->
                 lexicographicLess a c = true) /\
  (forall a b, Type_ a <> Type_ b ->
     (lexicographicLess a b = true /\ lexicographicLess b a = false) \/
     (lexicographicLess a b = false /\ lexicographicLess b a = true)) /\
  (forall a b, Type_ a = Ready -> Type_ b <> Ready ->
     lexicographicLess a b = true /\ lexicographicLess b a = false) /\
  (forall a b, Type_ a <> Ready -> Type_ b <> Ready ->
     lexicographicLess a b = String.ltb (Type_ a) (Type_ b)).
Proof.
  split; [apply less_irrefl|].
  split; [apply less_trans|].
  split; [|split].
  - intros a b Hne. destruct (less_total a b Hne) as [H|H].
    + left. split; [assumption|now apply less_asym].
    + right. split; [now apply less_asym|assumption].
  - intros a b Ha Hb. split; [now apply less_Ready_l|now apply less_Ready_r].
  - apply less_other.
Qed.

End less_facts.

(* ====================================================================== *)
(** ** Insertion sort meets the contract of [sort.Slice] *)
(* ====================================================================== *)

Module sort_facts.
Import sort.

Section insertion.
Context {A : Type} (less : A -> A -> bool).

Lemma sink_permutation (x : A) (rp : list A) : Permutation (x :: rp) (sink less x rp).
Proof.
  induction rp as [|p rp IH]; simpl; [reflexivity|].
  destruct (less x p); [|reflexivity].
  rewrite perm_swap. now apply perm_skip.
Qed.

Lemma sinks_permutation (l : list A) :
  forall rp, Permutation (rev l ++ rp) (fold_left (fun rp x => sink less x rp) l rp).
Proof.
  induction l as [|x l IH]; intros rp; simpl; [reflexivity|].
  rewrite <- IH, <- app_assoc. simpl.
  apply Permutation_app_head, sink_permutation.
Qed.

Lemma insertionSort_permutation (l : list A) : Permutation l (insertionSort less l).
Proof.
  unfold insertionSort. rewrite <- Permutation_rev.
  rewrite <- sinks_permutation, app_nil_r. apply Permutation_rev.
Qed.

Hypothesis Hswo : StrictWeakOrder less.

Lemma swo_asym (a b : A) : less a b = true -> less b a = false.
Proof.
  intros Hab. destruct (less b a) eqn:Hba; [|reflexivity].
  pose proof (swo_trans less Hswo _ _ _ Hab Hba) as H.
  rewrite (swo_irrefl less Hswo) in H. discriminate.
Qed.

(** The prefix, last element first: every element may stand after the ones
    that follow it in the list. *)
Definition rsorted (rp : list A) : Prop :=
  StronglySorted (fun a b => less a b = false) rp.

Lemma sink_rsorted (x : A) (rp : list A) : rsorted rp -> rsorted (sink less x rp).
Proof.
  unfold rsorted. induction rp as [|p rp IH]; intros Hs; simpl.
  - repeat constructor.
  - apply StronglySorted_inv in Hs as [Hs Hp].
    destruct (less x p) eqn:Hxp.
    + constructor; [auto|].
      rewrite <- (sink_permutation x rp). constructor; [|assumption].
      now apply swo_asym.
    + constructor; [now constructor|].
      constructor; [assumption|].
      rewrite Forall_forall in Hp |- *. intros b Hb.
      eapply (swo_incomp less Hswo); eauto.
Qed.

Lemma sinks_rsorted (l : list A) :
  forall rp, rsorted rp -> rsorted (fold_left (fun rp x => sink less x rp) l rp).
Proof.
  induction l as [|x l IH]; intros rp Hrp; simpl; [assumption|].
  apply IH, sink_rsorted, Hrp.
Qed.

Lemma rsorted_rev (rp : list A) : rsorted rp -> StronglySorted (ordered less) (rev rp).
Proof.
  unfold rsorted. induction rp as [|p rp IH]; intros Hs; simpl; [constructor|].
  apply StronglySorted_inv in Hs as [Hs Hp].
  apply StronglySorted_app. split; [|split].
  - intros a b Ha Hb. apply list_elem_of_In, in_rev in Ha.
    apply list_elem_of_singleton in Hb. subst b.
    rewrite Forall_forall in Hp. apply Hp. now apply list_elem_of_In.
  - auto.
  - repeat constructor.
Qed.

Lemma insertionSort_sorted (l : list A) :
  StronglySorted (ordered less) (insertionSort less l).
Proof.
  unfold insertionSort. apply rsorted_rev, sinks_rsorted. constructor.
Qed.

End insertion.

(** [sort.Slice] as Go runs it on a short slice. *)
#[export] Instance insertion_sorter : Sorter := {|
  Slice := @insertionSort;
  Slice_permutation := @insertionSort_permutation;
  Slice_sorted := @insertionSort_sorted
|}.

End sort_facts.

(* ====================================================================== *)
(** ** Lookup and update of one entry *)
(* ====================================================================== *)

Module set_facts.
Import conditions props less_facts.

Lemma get_split (conds : list Condition) (t : CType) :
  match get conds t with
  | Some p => exists l1 c l2,
      conds = l1 ++ c :: l2 /\ length l1 = p /\
      Forall (fun x => Type_ x <> t) l1 /\ Type_ c = t
  | None => Forall (fun x => Type_ x <> t) conds
  end.
Proof.
  induction conds as [|c conds IH]; simpl; [constructor|].
  destruct (String.eqb_spec (Type_ c) t) as [Hc|Hc].
  - exists [], c, conds. repeat split; auto.
  - destruct (get conds t) as [p|]; simpl.
    + destruct IH as (l1 & c' & l2 & -> & <- & Hl1 & Hc').
      exists (c :: l1), c', l2. repeat split; auto.
    + constructor; assumption.
Qed.

Lemma get_app_found (l1 l2 : list Condition) (c : Condition) (t : CType) :
  Forall (fun x => Type_ x <> t) l1 -> Type_ c = t ->
  get (l1 ++ c :: l2) t = Some (length l1).
Proof.
  intros Hl1 Hc. induction Hl1 as [|x l1 Hx _ IH]; simpl.
  - apply String.eqb_eq in Hc. now rewrite Hc.
  - apply String.eqb_neq in Hx. rewrite Hx, IH. reflexivity.
Qed.

Lemma get_absent (l : list Condition) (t : CType) :
  Forall (fun x => Type_ x <> t) l -> get l t = None.
Proof.
  intros Hl. induction Hl as [|x l Hx _ IH]; simpl; [reflexivity|].
  apply String.eqb_neq in Hx. now rewrite Hx, IH.
Qed.

Lemma entry_app_found (l1 l2 : list Condition) (c : Condition) (t : CType) :
  Forall (fun x => Type_ x <> t) l1 -> Type_ c = t ->
  entry (l1 ++ c :: l2) t = Some c.
Proof.
  intros Hl1 Hc. unfold entry. rewrite get_app_found by assumption.
  now rewrite list_lookup_middle.
Qed.

Lemma entry_absent (l : list Condition) (t : CType) :
  Forall (fun x => Type_ x <> t) l -> entry l t = None.
Proof. intros Hl. unfold entry. now rewrite get_absent. Qed.

(** [entry] is the first element of the given type, in slice order. *)
Lemma entry_split (conds : list Condition) (t : CType) :
  match entry conds t with
  | Some c => exists l1 l2,
      conds = l1 ++ c :: l2 /\ Forall (fun x => Type_ x <> t) l1 /\ Type_ c = t
  | None => Forall (fun x => Type_ x <> t) conds
  end.
Proof.
  unfold entry. pose proof (get_split conds t) as H.
  destruct (get conds t) as [p|]; [|assumption].
  destruct H as (l1 & c & l2 & -> & <- & Hl1 & Hc).
  rewrite list_lookup_middle by reflexivity. eauto.
Qed.

Lemma filter_none (t : CType) (l : list Condition) :
  Forall (fun x => Type_ x <> t) l -> filter (has_type t) l = [].
Proof.
  intros Hl. induction Hl as [|x l Hx _ IH]; [reflexivity|].
  rewrite filter_cons_False by exact Hx. exact IH.
Qed.

Lemma filter_all (t : CType) (l : list Condition) :
  Forall (fun x => Type_ x <> t) l -> filter (fun x => ~ has_type t x) l = l.
Proof.
  intros Hl. induction Hl as [|x l Hx _ IH]; [reflexivity|].
  rewrite filter_cons_True by exact Hx. now rewrite IH.
Qed.

Lemma entry_head_filter (conds : list Condition) (t : CType) :
  entry conds t = head (filter (has_type t) conds).
Proof.
  pose proof (entry_split conds t) as H. destruct (entry conds t) as [c|].
  - destruct H as (l1 & l2 & -> & Hl1 & Hc).
    rewrite filter_app, filter_none by assumption.
    now rewrite filter_cons_True by exact Hc.
  - now rewrite filter_none.
Qed.

(** How [upsert] rewrites the slice. *)
Lemma upsert_spec (now : Time) (conds : list Condition) (t : CType)
    (s : ConditionStatus) (reason msg : string) :
  match entry conds t with
  | Some c => exists l1 l2,
      conds = l1 ++ c :: l2 /\ Forall (fun x => Type_ x <> t) l1 /\ Type_ c = t /\
      upsert now conds t s reason msg =
        l1 ++ written now (Some c) t s reason msg :: l2
  | None =>
      Forall (fun x => Type_ x <> t) conds /\
      upsert now conds t s reason msg = conds ++ [written now None t s reason msg]
  end.
Proof.
  unfold entry, upsert. pose proof (get_split conds t) as H.
  destruct (get conds t) as [p|]; [|split; auto].
  destruct H as (l1 & c & l2 & -> & <- & Hl1 & Hc).
  rewrite list_lookup_middle by reflexivity.
  exists l1, l2. repeat split; auto.
  rewrite insert_app_r_alt, Nat.sub_diag by lia. simpl. now rewrite Hc.
Qed.

End set_facts.

(* ====================================================================== *)
(** ** [set]: one entry written, the slice sorted *)
(* ====================================================================== *)

Module set_props.
Import conditions props less_facts set_facts.

Lemma NoDup_unique_type (t : CType) (conds : list Condition) :
  NoDup (map Type_ conds) -> unique_type t conds.
Proof.
  unfold unique_type. induction conds as [|c conds IH]; simpl; intros Hnd; [lia|].
  apply NoDup_cons in Hnd as [Hc Hnd].
  destruct (decide (has_type t c)) as [Ht|Ht].
  - rewrite filter_cons_True by exact Ht.
    rewrite filter_none; [simpl; lia|].
    apply Forall_forall. intros x Hx Hxt. apply Hc.
    unfold has_type in Ht. rewrite Ht, <- Hxt.
    apply list_elem_of_fmap. eauto.
  - rewrite filter_cons_False by exact Ht. auto.
Qed.

Lemma upsert_filter_other (now : Time) (conds : list Condition) (t : CType)
    (s : ConditionStatus) (reason msg : string) :
  filter (fun x => ~ has_type t x) (upsert now conds t s reason msg) =
  filter (fun x => ~ has_type t x) conds.
Proof.
  pose proof (upsert_spec now conds t s reason msg) as H.
  destruct (entry conds t) as [c|].
  - destruct H as (l1 & l2 & -> & Hl1 & Hc & ->).
    rewrite !filter_app.
    rewrite (filter_cons_False _ c) by (intros Hn; now apply Hn).
    rewrite filter_cons_False; [reflexivity|].
    intros Hn. apply Hn. reflexivity.
  - destruct H as [Hl ->]. rewrite filter_app.
    rewrite filter_cons_False; [now rewrite app_nil_r|].
    intros Hn. apply Hn. reflexivity.
Qed.

Lemma upsert_filter_same (now : Time) (conds : list Condition) (t : CType)
    (s : ConditionStatus) (reason msg : string) :
  filter (has_type t) (upsert now conds t s reason msg) =
  written now (entry conds t) t s reason msg :: tail (filter (has_type t) conds).
Proof.
  pose proof (upsert_spec now conds t s reason msg) as H.
  destruct (entry conds t) as [c|].
  - destruct H as (l1 & l2 & -> & Hl1 & Hc & ->).
    rewrite !filter_app, !filter_none by assumption.
    rewrite (filter_cons_True _ c) by exact Hc.
    now rewrite filter_cons_True by reflexivity.
  - destruct H as [Hl ->]. rewrite filter_app, filter_none by assumption.
    now rewrite filter_cons_True by reflexivity.
Qed.

Lemma upsert_types (now : Time) (conds : list Condition) (t : CType)
    (s : ConditionStatus) (reason msg : string) :
  map Type_ (upsert now conds t s reason msg) =
  match entry conds t with
  | Some _ => map Type_ conds
  | None => map Type_ conds ++ [t]
  end.
Proof.
  pose proof (upsert_spec now conds t s reason msg) as H.
  destruct (entry conds t) as [c|].
  - destruct H as (l1 & l2 & -> & Hl1 & Hc & ->).
    rewrite !map_app. simpl. now rewrite Hc.
  - destruct H as [Hl ->]. now rewrite map_app.
Qed.

Lemma upsert_NoDup (now : Time) (conds : list Condition) (t : CType)
    (s : ConditionStatus) (reason msg : string) :
  NoDup (map Type_ conds) -> NoDup (map Type_ (upsert now conds t s reason msg)).
Proof.
  intros Hnd. rewrite upsert_types.
  pose proof (entry_split conds t) as H.
  destruct (entry conds t) as [c|]; [assumption|].
  apply NoDup_app. split; [assumption|]. split; [|apply NoDup_singleton].
  intros x Hx Hx'. apply list_elem_of_singleton in Hx'. subst x.
  apply list_elem_of_fmap in Hx as (c & Hc & Hin).
  rewrite Forall_forall in H. apply (H c Hin). auto.
Qed.

Lemma upsert_written_in (now : Time) (conds : list Condition) (t : CType)
    (s : ConditionStatus) (reason msg : string) :
  written now (entry conds t) t s reason msg ∈ upsert now conds t s reason msg.
Proof.
  pose proof (upsert_spec now conds t s reason msg) as H.
  destruct (entry conds t) as [c|].
  - destruct H as (l1 & l2 & -> & Hl1 & Hc & ->).
    apply elem_of_app. right. apply list_elem_of_here.
  - destruct H as [Hl ->]. apply elem_of_app. right. apply list_elem_of_here.
Qed.

(** Where at most one entry has type [t], lookup by type does not depend on
    the order of the slice. *)
Lemma entry_Permutation (t : CType) (l l' : list Condition) (c : Condition) :
  filter (has_type t) l = [c] -> l ≡ₚ l' -> entry l' t = Some c.
Proof.
  intros Hf Hp. rewrite entry_head_filter.
  assert (filter (has_type t) l ≡ₚ filter (has_type t) l') as Hp'
    by now apply filter_Permutation.
  rewrite Hf in Hp'. apply Permutation_singleton_l in Hp'. now rewrite <- Hp'.
Qed.

Section with_sorter.
Context `{!sort.Sorter}.

Lemma sortConditions_permutation (conds : list Condition) :
  conds ≡ₚ sortConditions conds.
Proof. apply sort.Slice_permutation. Qed.

Lemma sortConditions_sorted (conds : list Condition) :
  StronglySorted (sort.ordered lexicographicLess) (sortConditions conds).
Proof. apply sort.Slice_sorted, lexicographicLess_swo. Qed.

Lemma set_permutation (now : Time) (conds : list Condition) (t : CType)
    (s : ConditionStatus) (reason msg : string) :
  upsert now conds t s reason msg ≡ₚ set now conds t s reason msg.
Proof. apply sortConditions_permutation. Qed.

Lemma set_written_in (now : Time) (conds : list Condition) (t : CType)
    (s : ConditionStatus) (reason msg : string) :
  written now (entry conds t) t s reason msg ∈ set now conds t s reason msg.
Proof. rewrite <- set_permutation. apply upsert_written_in. Qed.

Lemma set_entry (now : Time) (conds : list Condition) (t : CType)
    (s : ConditionStatus) (reason msg : string) :
  unique_type t conds ->
  entry (set now conds t s reason msg) t =
  Some (written now (entry conds t) t s reason msg).
Proof.
  intros Hu. eapply entry_Permutation; [|apply set_permutation].
  rewrite upsert_filter_same. unfold unique_type in Hu.
  destruct (filter (has_type t) conds) as [|x [|y l]]; simpl in *; try reflexivity; lia.
Qed.

Lemma set_NoDup (now : Time) (conds : list Condition) (t : CType)
    (s : ConditionStatus) (reason msg : string) :
  NoDup (map Type_ conds) -> NoDup (map Type_ (set now conds t s reason msg)).
Proof.
  intros Hnd. rewrite <- set_permutation. now apply upsert_NoDup.
Qed.

Lemma set_filter_other (now : Time) (conds : list Condition) (t : CType)
    (s : ConditionStatus) (reason msg : string) :
  filter (fun x => ~ has_type t x) (set now conds t s reason msg) ≡ₚ
  filter (fun x => ~ has_type t x) conds.
Proof.
  rewrite <- set_permutation. now rewrite upsert_filter_other.
Qed.

End with_sorter.

End set_props.

(* ====================================================================== *)
(** ** The public helpers *)
(* ====================================================================== *)

Module api_props.
Import conditions props less_facts set_facts set_props.

Lemma firstFalse_spec (conds : list Condition) :
  match firstFalse conds with
  | Some (r, m) => exists l1 c l2,
      conds = l1 ++ c :: l2 /\ no_False l1 /\
      Type_ c <> Ready /\ Status c = False_ /\ r = Reason c /\ m = Message c
  | None => no_False conds
  end.
Proof.
  unfold no_False. induction conds as [|c conds IH]; simpl; [constructor|].
  destruct (String.eqb_spec (Type_ c) Ready) as [Hc|Hc].
  - destruct (firstFalse conds) as [[r m]|].
    + destruct IH as (l1 & c' & l2 & -> & Hl1 & H).
      exists (c :: l1), c', l2. split; [reflexivity|]. split; [|exact H].
      constructor; auto.
    + constructor; auto.
  - destruct (String.eqb_spec (Status c) False_) as [Hs|Hs].
    + exists [], c, conds. repeat split; auto.
    + destruct (firstFalse conds) as [[r m]|].
      * destruct IH as (l1 & c' & l2 & -> & Hl1 & H).
        exists (c :: l1), c', l2. split; [reflexivity|]. split; [|exact H].
        constructor; auto.
      * constructor; auto.
Qed.

Lemma firstFalse_None (conds : list Condition) :
  no_False conds -> firstFalse conds = None.
Proof.
  intros H. induction H as [|c conds Hc _ IH]; simpl; [reflexivity|].
  destruct (String.eqb_spec (Type_ c) Ready) as [Hr|Hr]; [assumption|].
  destruct Hc as [Hc|Hc]; [contradiction|].
  apply String.eqb_neq in Hc. now rewrite Hc.
Qed.

Lemma no_False_iff (conds : list Condition) :
  no_False conds <-> (forall c, c ∈ conds -> Type_ c <> Ready -> Status c <> False_).
Proof.
  unfold no_False. rewrite Forall_forall. split.
  - intros H c Hc Hr. destruct (H c Hc); [contradiction|assumption].
  - intros H c Hc. destruct (String.eqb_spec (Type_ c) Ready); [now left|right; auto].
Qed.

Section with_accessor.
Context `{!sort.Sorter} {O : Type} `{!ConditionsAccessor O}.

Lemma IsTrue_entry (obj : O) (t : CType) :
  IsTrue obj t =
  match entry (GetConditions obj) t with
  | Some c => String.eqb (Status c) True_
  | None => false
  end.
Proof. unfold IsTrue, entry. now destruct (get _ _). Qed.

Lemma written_Ready (now : Time) (old : option Condition)
    (s : ConditionStatus) (reason msg : string) :
  let r := written now old Ready s reason msg in
  Type_ r = Ready /\ Status r = s /\ Reason r = reason /\ Message r = msg.
Proof. destruct old; simpl; auto. Qed.

(** C1.  [SyncReady] and the [Ready] condition.  If some entry other than
    [Ready] has status [False], the set written back holds a [Ready] entry
    with status [False] and the reason and message of the first such entry
    in slice order.  If no entry other than [Ready] has status [False]
    (entries with status [Unknown] may be present), it holds a [Ready] entry
    with status [True] and empty reason and message.  Where the set read had
    at most one [Ready] entry, that entry is the one a lookup of [Ready]
    finds afterwards. *)
Theorem SyncReady_sets_Ready (now : Time) (obj : O) :
  let before := GetConditions obj in
  let after := GetConditions (SyncReady now obj) in
  ((exists c, c ∈ before /\ Type_ c <> Ready /\ Status c = False_) ->
   exists l1 c l2 r,
     before = l1 ++ c :: l2 /\
     (forall x, x ∈ l1 -> Type_ x <> Ready -> Status x <> False_) /\
     Type_ c <> Ready /\ Status c = False_ /\
     r ∈ after /\ Type_ r = Ready /\ Status r = False_ /\
     Reason r = Reason c /\ Message r = Message c /\
     (unique_type Ready before -> entry after Ready = Some r)) /\
  ((forall c, c ∈ before -> Type_ c <> Ready -> Status c <> False_) ->
   exists r,
     r ∈ after /\ Type_ r = Ready /\ Status r = True_ /\
     Reason r = "" /\ Message r = "" /\
     (unique_type Ready before -> entry after Ready = Some r)).
Proof.
  intros before after. subst after. unfold SyncReady. fold before.
  pose proof (firstFalse_spec before) as Hff. split.
  - intros (c0 & Hin & Hr0 & Hs0).
    destruct (firstFalse before) as [[r m]|].
    + destruct Hff as (l1 & c & l2 & Hsplit & Hl1 & Hr & Hs & -> & ->).
      rewrite Get_SetConditions.
      exists l1, c, l2, (written now (entry before Ready) Ready False_ (Reason c) (Message c)).
      pose proof (written_Ready now (entry before Ready) False_ (Reason c) (Message c))
        as (Ht & Hst & Hre & Hme).
      split; [assumption|]. split; [now apply no_False_iff|].
      repeat (split; [assumption|]).
      split; [apply set_written_in|].
      repeat (split; [assumption|]).
      intros Hu. now apply set_entry.
    + now destruct (proj1 (no_False_iff _) Hff c0 Hin Hr0).
  - intros Hnf. rewrite (firstFalse_None _ (proj2 (no_False_iff _) Hnf)).
    rewrite Get_SetConditions.
    exists (written now (entry before Ready) Ready True_ "" "").
    pose proof (written_Ready now (entry before Ready) True_ "" "")
      as (Ht & Hst & Hre & Hme).
    split; [apply set_written_in|].
    repeat (split; [assumption|]).
    intros Hu. now apply set_entry.
Qed.

Lemma set_transition_rule (now : Time) (conds : list Condition) (t : CType)
    (s : ConditionStatus) (reason msg : string) :
  unique_type t conds ->
  transition_rule now conds (set now conds t s reason msg) t reason.
Proof.
  intros Hu. unfold transition_rule. rewrite (set_entry now conds t s reason msg Hu).
  destruct (entry conds t) as [old|]; simpl.
  - eexists. split; [reflexivity|]. simpl.
    destruct (String.eqb_spec (Reason old) reason) as [Heq|Hne]; simpl.
    + split; [reflexivity|]. split; [reflexivity|]. intros Hlt.
      split; [congruence|]. split; [lia|congruence].
    + split; [reflexivity|]. split; [congruence|]. intros Hlt.
      split; [auto|]. split; congruence.
  - eexists. split; reflexivity.
Qed.


(** C5.  [IsTrue] returns true exactly when the entry that the lookup of
    [t] finds (the first of that Type in slice order) has status [True];
    in a set with at most one entry of Type [t], exactly when an entry of
    Type [t] with status [True] is in the set.  With no entry of Type [t]
    it returns false; it is a total function, so it raises nothing. *)
Theorem IsTrue_iff (obj : O) (t : CType) :
  let conds := GetConditions obj in
  (IsTrue obj t = true <-> exists c, entry conds t = Some c /\ Status c = True_) /\
  (unique_type t conds ->
     (IsTrue obj t = true <->
      exists c, c ∈ conds /\ Type_ c = t /\ Status c = True_)) /\
  ((forall c, c ∈ conds -> Type_ c <> t) -> IsTrue obj t = false).
Proof.
  intros conds. rewrite IsTrue_entry. fold conds.
  pose proof (entry_split conds t) as Hs.
  split; [|split].
  - destruct (entry conds t) as [c|].
    + rewrite String.eqb_eq. split; [eauto|]. now intros (c' & [= <-] & Hst).
    + split; [discriminate|]. now intros (c' & [=] & _).
  - intros Hu. destruct (entry conds t) as [c|].
    + destruct Hs as (l1 & l2 & Hc & Hl1 & Ht).
      rewrite String.eqb_eq. split.
      * intros Hst. exists c. split; [|auto].
        rewrite Hc. apply elem_of_app. right. apply list_elem_of_here.
      * intros (c' & Hin & Ht' & Hst').
        assert (c' = c) as ->; [|assumption].
        unfold unique_type in Hu. rewrite Hc in Hu, Hin.
        rewrite filter_app, filter_none, filter_cons_True in Hu by assumption.
        simpl in Hu. assert (filter (has_type t) l2 = []) as Hl2
          by (destruct (filter (has_type t) l2); [reflexivity|simpl in Hu; lia]).
        apply elem_of_app in Hin as [Hin|Hin].
        { rewrite Forall_forall in Hl1. now destruct (Hl1 c' Hin). }
        apply elem_of_cons in Hin as [Hin|Hin]; [assumption|].
        exfalso. eapply filter_nil_not_elem_of; [exact Hl2| |exact Hin]. exact Ht'.
    + split; [discriminate|]. intros (c' & Hin & Ht' & _).
      rewrite Forall_forall in Hs. now destruct (Hs c' Hin).
  - intros Habs. rewrite entry_absent; [reflexivity|].
    apply Forall_forall. exact Habs.
Qed.

Lemma set_preserved (now : Time) (conds : list Condition) (t : CType)
    (s : ConditionStatus) (reason msg : string) :
  preserved t conds (set now conds t s reason msg).
Proof.
  assert (forall c, c ∈ conds -> Type_ c <> t -> c ∈ set now conds t s reason msg)
    as Hother.
  { intros c Hin Hne.
    assert (c ∈ filter (fun x => ~ has_type t x) (set now conds t s reason msg)) as Hf.
    { rewrite set_filter_other. apply list_elem_of_filter. auto. }
    apply list_elem_of_filter in Hf. tauto. }
  split; [|split].
  - intros c Hin. destruct (String.eqb_spec (Type_ c) t) as [Heq|Hne].
    + exists (written now (entry conds t) t s reason msg).
      split; [apply set_written_in|]. rewrite Heq. now destruct (entry conds t).
    + exists c. auto.
  - exact Hother.
  - apply set_filter_other.
Qed.

(** C7.  No helper deletes a condition: every Type in the set before a call
    is in the set after it.  After a mark of [t], every entry of another
    Type is in the set with all its fields as they were, and the entries of
    other Types are the same collection as before; the same holds for
    [SyncReady] and the Types other than [Ready]. *)
Theorem helpers_delete_nothing (now : Time) (obj : O) (t : CType)
    (reason msg : string) :
  let before := GetConditions obj in
  preserved t before (GetConditions (MarkTrue now obj t)) /\
  preserved t before (GetConditions (MarkFalse now obj t reason msg)) /\
  preserved t before (GetConditions (MarkUnknown now obj t reason msg)) /\
  preserved Ready before (GetConditions (SyncReady now obj)).
Proof.
  intros before. unfold MarkTrue, MarkFalse, MarkUnknown, SyncReady. fold before.
  destruct (firstFalse before) as [[r m]|];
    rewrite !Get_SetConditions; repeat split; apply set_preserved.
Qed.

End with_accessor.

End api_props.

(* ====================================================================== *)
(** ** Invariants of the set, histories of calls, repeated calls *)
(* ====================================================================== *)

Module invariants.
Import conditions props less_facts set_facts set_props api_props.

Lemma NoDup_types_inj (l : list Condition) (x y : Condition) :
  NoDup (map Type_ l) -> x ∈ l -> y ∈ l -> Type_ x = Type_ y -> x = y.
Proof.
  induction l as [|c l IH]; simpl; intros Hnd Hx Hy Heq.
  - inversion Hx.
  - apply NoDup_cons in Hnd as [Hc Hnd].
    apply elem_of_cons in Hx as [->|Hx]; apply elem_of_cons in Hy as [->|Hy]; auto.
    + exfalso. apply Hc. rewrite Heq. now apply list_elem_of_fmap_2.
    + exfalso. apply Hc. rewrite <- Heq. now apply list_elem_of_fmap_2.
Qed.

(** A set with unique Types has one sorted arrangement. *)
Lemma sorted_unique (l1 l2 : list Condition) :
  NoDup (map Type_ l1) ->
  StronglySorted (sort.ordered lexicographicLess) l1 ->
  StronglySorted (sort.ordered lexicographicLess) l2 ->
  l1 ≡ₚ l2 -> l1 = l2.
Proof.
  intros Hnd Hs1 Hs2 Hp.
  apply (StronglySorted_unique_strong (sort.ordered lexicographicLess)); auto.
  unfold sort.ordered. intros x1 x2 Hx1 Hx2 H21 H12.
  apply (NoDup_types_inj l1); auto; [now rewrite Hp|].
  destruct (less_false_inv _ _ H12) as [Heq|Hlt]; [assumption|congruence].
Qed.

Lemma StronglySorted_filter {A : Type} (R : A -> A -> Prop) (P : A -> Prop)
    `{forall x, Decision (P x)} (l : list A) :
  StronglySorted R l -> StronglySorted R (filter P l).
Proof.
  induction 1 as [|a l Hs IH Ha]; [constructor|].
  rewrite filter_cons. destruct (decide (P a)); [|assumption].
  constructor; [assumption|].
  rewrite Forall_forall in Ha |- *. intros x Hx.
  apply list_elem_of_filter in Hx as [_ Hx]. auto.
Qed.

Lemma NoDup_types_filter (P : Condition -> Prop) `{forall x, Decision (P x)}
    (l : list Condition) :
  NoDup (map Type_ l) -> NoDup (map Type_ (filter P l)).
Proof.
  induction l as [|c l IH]; simpl; intros Hnd; [constructor|].
  apply NoDup_cons in Hnd as [Hc Hnd]. rewrite filter_cons.
  destruct (decide (P c)); [|auto]. simpl. apply NoDup_cons. split; [|auto].
  intros Hin. apply Hc.
  apply list_elem_of_fmap in Hin as (x & -> & Hx).
  apply list_elem_of_filter in Hx as [_ Hx]. now apply list_elem_of_fmap_2.
Qed.

(** A well-formed set has the shape of [sort_invariant]. *)
Lemma well_formed_sort_invariant (conds : list Condition) :
  well_formed conds -> sort_invariant conds.
Proof.
  intros [Hnd Hs].
  assert (forall l, NoDup (map Type_ l) ->
            StronglySorted (sort.ordered lexicographicLess) l ->
            StronglySorted (fun a b => lexicographicLess a b = true) l) as Hstrict.
  { induction l as [|a l IH]; intros Hn Hso; [constructor|].
    apply StronglySorted_inv in Hso as [Hso Ha]. simpl in Hn.
    apply NoDup_cons in Hn as [Hna Hn]. constructor; [auto|].
    rewrite Forall_forall in Ha |- *. intros b Hb.
    destruct (less_false_inv _ _ (Ha b Hb)) as [Heq|Hlt]; [|assumption].
    exfalso. apply Hna. rewrite <- Heq. now apply list_elem_of_fmap_2. }
  assert (forall l, Forall (fun c => Type_ c <> Ready) l ->
            StronglySorted (fun a b => lexicographicLess a b = true) l ->
            StronglySorted (fun a b => String.ltb (Type_ a) (Type_ b) = true) l) as Hltb.
  { induction l as [|a l IH]; intros Hnr Hso; [constructor|].
    apply StronglySorted_inv in Hso as [Hso Ha].
    apply Forall_cons in Hnr as [Har Hnr]. constructor; [auto|].
    rewrite Forall_forall in Ha, Hnr |- *. intros b Hb.
    rewrite <- less_other; auto. }
  specialize (Hstrict conds Hnd Hs).
  destruct conds as [|c rest].
  - exists []. split; [now left|]. split; constructor.
  - apply StronglySorted_inv in Hstrict as [Hrest Hc].
    assert (Forall (fun x => Type_ x <> Ready) rest) as Hnr.
    { rewrite Forall_forall in Hc |- *. intros b Hb.
      now destruct (less_true_inv _ _ (Hc b Hb)). }
    destruct (String.eqb_spec (Type_ c) Ready) as [Hr|Hr].
    + exists rest. split; [right; eauto|]. split; [assumption|]. now apply Hltb.
    + exists (c :: rest). split; [now left|].
      assert (Forall (fun x => Type_ x <> Ready) (c :: rest)) as Hall
        by (constructor; assumption).
      split; [assumption|]. apply Hltb; [assumption|]. now constructor.
Qed.

Lemma firstFalse_filter (conds : list Condition) :
  firstFalse conds = firstFalse (filter (fun x => ~ has_type Ready x) conds).
Proof.
  induction conds as [|c conds IH]; [reflexivity|].
  rewrite filter_cons. simpl.
  destruct (String.eqb_spec (Type_ c) Ready) as [Hr|Hr].
  - destruct (decide (~ has_type Ready c)) as [Hn|_]; [contradiction|assumption].
  - destruct (decide (~ has_type Ready c)) as [_|Hn]; [|contradiction].
    simpl. apply String.eqb_neq in Hr. rewrite Hr. now rewrite IH.
Qed.

Section with_sorter.
Context `{!sort.Sorter}.

Lemma set_well_formed (now : Time) (conds : list Condition) (t : CType)
    (s : ConditionStatus) (reason msg : string) :
  NoDup (map Type_ conds) -> well_formed (set now conds t s reason msg).
Proof.
  intros Hnd. split; [now apply set_NoDup|apply sortConditions_sorted].
Qed.

Lemma sortConditions_fixed (conds : list Condition) :
  well_formed conds -> sortConditions conds = conds.
Proof.
  intros [Hnd Hs]. symmetry. apply sorted_unique; auto.
  - apply sortConditions_sorted.
  - apply sortConditions_permutation.
Qed.

(** Writing again what [set] has just written changes nothing. *)
Lemma set_again (now now' : Time) (conds : list Condition) (t : CType)
    (s : ConditionStatus) (reason msg : string) :
  NoDup (map Type_ conds) ->
  set now' (set now conds t s reason msg) t s reason msg =
  set now conds t s reason msg.
Proof.
  intros Hnd.
  pose proof (set_well_formed now conds t s reason msg Hnd) as Hwf.
  pose proof (set_entry now conds t s reason msg (NoDup_unique_type t conds Hnd)) as He.
  remember (set now conds t s reason msg) as l1 eqn:El1.
  unfold set at 1.
  pose proof (upsert_spec now' l1 t s reason msg) as Hup. rewrite He in Hup.
  destruct Hup as (k1 & k2 & Hl1 & _ & _ & Hup).
  assert (written now' (Some (written now (entry conds t) t s reason msg)) t s reason msg
          = written now (entry conds t) t s reason msg) as Hw.
  { destruct (entry conds t) as [old|]; simpl; now rewrite String.eqb_refl. }
  rewrite Hw, <- Hl1 in Hup. rewrite Hup. now apply sortConditions_fixed.
Qed.

Lemma set_firstFalse (now : Time) (conds : list Condition)
    (s : ConditionStatus) (reason msg : string) :
  well_formed conds ->
  firstFalse (set now conds Ready s reason msg) = firstFalse conds.
Proof.
  intros [Hnd Hs].
  rewrite firstFalse_filter, (firstFalse_filter conds). f_equal.
  symmetry. apply sorted_unique.
  - now apply NoDup_types_filter.
  - now apply StronglySorted_filter.
  - apply StronglySorted_filter, sortConditions_sorted.
  - symmetry. apply set_filter_other.
Qed.

Context {O : Type} `{!ConditionsAccessor O}.

Lemma call_well_formed (now : Time) (obj : O) (c : Call) :
  NoDup (map Type_ (GetConditions obj)) ->
  well_formed (GetConditions (call now obj c)).
Proof.
  intros Hnd. destruct c; simpl;
    unfold MarkTrue, MarkFalse, MarkUnknown, SyncReady;
    try destruct (firstFalse _) as [[r m]|];
    rewrite Get_SetConditions; now apply set_well_formed.
Qed.

Lemma calls_NoDup (history : list (Time * Call)) :
  forall obj : O,
    NoDup (map Type_ (GetConditions obj)) ->
    NoDup (map Type_ (GetConditions (calls history obj))).
Proof.
  unfold calls. induction history as [|[now c] history IH]; intros obj Hnd; simpl.
  - assumption.
  - apply IH. now apply call_well_formed.
Qed.

Lemma calls_well_formed (history : list (Time * Call)) :
  forall obj : O,
    well_formed (GetConditions obj) ->
    well_formed (GetConditions (calls history obj)).
Proof.
  unfold calls. induction history as [|[now c] history IH]; intros obj Hwf; simpl.
  - assumption.
  - apply IH. apply call_well_formed, Hwf.
Qed.

(** C3.  Starting from the empty set, after any sequence of [MarkTrue],
    [MarkFalse], [MarkUnknown] and [SyncReady] calls (so after each call of
    a longer sequence) the set written back has its [Ready] entry, if any,
    at index 0, and the entries after it strictly ascend in the byte-wise
    order of their Types. *)
Theorem calls_keep_sort_invariant (history : list (Time * Call)) (obj : O) :
  GetConditions obj = [] ->
  sort_invariant (GetConditions (calls history obj)) /\
  (forall c, c ∈ GetConditions (calls history obj) -> Type_ c = Ready ->
     GetConditions (calls history obj) !! 0 = Some c).
Proof.
  intros Hempty.
  assert (well_formed (GetConditions (calls history obj))) as Hwf.
  { apply calls_well_formed. rewrite Hempty. split; constructor. }
  pose proof (well_formed_sort_invariant _ Hwf) as Hinv.
  split; [assumption|].
  intros c Hin Hc. destruct Hinv as (rest & [Hshape|(r & Hr & Hshape)] & Hnr & _).
  - rewrite <- Hshape in Hnr. rewrite Forall_forall in Hnr. now destruct (Hnr c Hin).
  - rewrite Hshape in Hin |- *. simpl. f_equal.
    apply elem_of_cons in Hin as [->|Hin]; [reflexivity|].
    rewrite Forall_forall in Hnr. now destruct (Hnr c Hin).
Qed.

(** C4.  Starting from a set with no duplicate Types, after any sequence
    of [MarkTrue], [MarkFalse], [MarkUnknown] and [SyncReady] calls the set
    has at most one entry of each Type. *)
Theorem calls_keep_types_unique (history : list (Time * Call)) (obj : O) :
  NoDup (map Type_ (GetConditions obj)) ->
  NoDup (map Type_ (GetConditions (calls history obj))) /\
  (forall t, length (filter (has_type t) (GetConditions (calls history obj))) <= 1).
Proof.
  intros Hnd. pose proof (calls_NoDup history obj Hnd) as H'.
  split; [assumption|]. intros t. now apply NoDup_unique_type.
Qed.

(** C9, as the code has it.  On a set with no duplicate Types, a [MarkTrue],
    [MarkFalse] or [MarkUnknown] call repeated with the same arguments, at
    any clock reading, leaves the set written by the first call unchanged,
    every [LastTransitionTime] included.  A repeated [SyncReady] does so
    when the set it first reads is moreover in sorted order. *)
Theorem repeated_call_changes_nothing (now now' : Time) (obj : O) (t : CType)
    (reason msg : string) :
  NoDup (map Type_ (GetConditions obj)) ->
  GetConditions (MarkTrue now' (MarkTrue now obj t) t) =
    GetConditions (MarkTrue now obj t) /\
  GetConditions (MarkFalse now' (MarkFalse now obj t reason msg) t reason msg) =
    GetConditions (MarkFalse now obj t reason msg) /\
  GetConditions (MarkUnknown now' (MarkUnknown now obj t reason msg) t reason msg) =
    GetConditions (MarkUnknown now obj t reason msg) /\
  (StronglySorted (sort.ordered lexicographicLess) (GetConditions obj) ->
   GetConditions (SyncReady now' (SyncReady now obj)) =
     GetConditions (SyncReady now obj)).
Proof.
  intros Hnd. unfold MarkTrue, MarkFalse, MarkUnknown.
  rewrite !Get_SetConditions.
  repeat (split; [now apply set_again|]).
  intros Hs. unfold SyncReady.
  destruct (firstFalse (GetConditions obj)) as [[r m]|] eqn:Hff;
    rewrite !Get_SetConditions;
    rewrite set_firstFalse by (split; assumption);
    rewrite Hff, !Get_SetConditions; now apply set_again.
Qed.

End with_sorter.

(** On a set with unique Types the sorted arrangement is unique, so every
    implementation of [sort.Slice] gives the same result. *)
Lemma sortConditions_any_sorter (S1 S2 : sort.Sorter) (conds : list Condition) :
  NoDup (map Type_ conds) ->
  @sortConditions S1 conds = @sortConditions S2 conds.
Proof.
  intros Hnd. apply sorted_unique.
  - now rewrite <- (@sortConditions_permutation S1).
  - apply sortConditions_sorted.
  - apply sortConditions_sorted.
  - rewrite <- (@sortConditions_permutation S1). apply sortConditions_permutation.
Qed.

Lemma set_any_sorter (S1 S2 : sort.Sorter) (now : Time) (conds : list Condition)
    (t : CType) (s : ConditionStatus) (reason msg : string) :
  NoDup (map Type_ conds) ->
  @set S1 now conds t s reason msg = @set S2 now conds t s reason msg.
Proof.
  intros Hnd. unfold set. apply sortConditions_any_sorter. now apply upsert_NoDup.
Qed.

Lemma SyncReady_any_sorter (S1 S2 : sort.Sorter) (now : Time) (obj : stub) :
  NoDup (map Type_ (conds obj)) ->
  @SyncReady S1 stub _ now obj = @SyncReady S2 stub _ now obj.
Proof.
  intros Hnd. unfold SyncReady. simpl.
  destruct (firstFalse (conds obj)) as [[r m]|]; f_equal; now apply set_any_sorter.
Qed.

End invariants.

(* ====================================================================== *)
(** ** A logic for the store-level helpers *)
(* ====================================================================== *)

Module runtime_facts.
Import conditions runtime.

Section logic.
Context `{!sort.Sorter} `{!Allocator}.

(** [runs base m w post]: from [w], [m] touches neither the accessor nor an
    array below [base], the store it leaves is the replay of its events, and
    [post] holds of its result. *)
Definition runs {A : Type} (base : nat) (m : M A) (w : world)
    (post : A -> world -> Prop) : Prop :=
  match m w with
  | (a, w', tr) => w' = replay tr w /\ Forall (private base) tr /\ post a w'
  end.

(** The slice [s] lives in an array at or above [base]. *)
Definition owned (base : nat) (w : world) (s : slice) : Prop :=
  base <= length (arrays w) /\
  match s with
  | nil_slice => True
  | mk_slice a n =>
      base <= a /\ exists cells, arrays w !! a = Some cells /\ n <= length cells
  end.

Lemma replay_app (tr1 tr2 : list event) (w : world) :
  replay (tr1 ++ tr2) w = replay tr2 (replay tr1 w).
Proof. apply fold_left_app. Qed.

Lemma runs_ret {A : Type} (base : nat) (a : A) (w : world) (post : A -> world -> Prop) :
  post a w -> runs base (mret a) w post.
Proof. intros Hp. unfold runs. simpl. auto. Qed.

Lemma runs_bind {A B : Type} (base : nat) (m : M A) (f : A -> M B) (w : world)
    (post : B -> world -> Prop) :
  runs base m w (fun a w1 => runs base (f a) w1 post) ->
  runs base (m ≫= f) w post.
Proof.
  unfold runs, mbind, M_bind. destruct (m w) as [[a w1] t1].
  intros (-> & Hp1 & Hf). destruct (f a (replay t1 w)) as [[b w2] t2].
  destruct Hf as (-> & Hp2 & Hpost). rewrite replay_app.
  split; [reflexivity|]. split; [|assumption]. apply Forall_app. auto.
Qed.

Lemma runs_inspect {A : Type} (base : nat) (f : world -> A) (w : world)
    (post : A -> world -> Prop) :
  post (f w) w -> runs base (inspect f) w post.
Proof. intros Hp. unfold runs, inspect. auto. Qed.

Lemma runs_emit (base : nat) (e : event) (w : world) (post : unit -> world -> Prop) :
  private base e -> post tt (apply_event e w) -> runs base (emit e) w post.
Proof. intros He Hp. unfold runs, emit. simpl. auto. Qed.

Lemma runs_weaken {A : Type} (base : nat) (m : M A) (w : world)
    (post post' : A -> world -> Prop) :
  runs base m w post -> (forall a w', post a w' -> post' a w') ->
  runs base m w post'.
Proof.
  unfold runs. destruct (m w) as [[a w'] tr]. intros (? & ? & ?) Himp. auto.
Qed.

(** Private events leave the accessor and the arrays below [base] alone. *)
Lemma private_frame (base : nat) (tr : list event) :
  forall w, base <= length (arrays w) -> Forall (private base) tr ->
    held (replay tr w) = held w /\
    length (arrays w) <= length (arrays (replay tr w)) /\
    (forall a, a < base -> arrays (replay tr w) !! a = arrays w !! a).
Proof.
  induction tr as [|e tr IH]; intros w Hb Hp; simpl; [auto|].
  apply Forall_cons in Hp as [He Hp].
  assert (held (apply_event e w) = held w /\
          length (arrays w) <= length (arrays (apply_event e w)) /\
          (forall a, a < base -> arrays (apply_event e w) !! a = arrays w !! a))
    as (Hh & Hl & Ha).
  { destruct e as [|s|cells|a' i c|a' n]; simpl in *; try contradiction.
    - rewrite length_app. simpl. repeat split; [lia|].
      intros a Hlt. apply lookup_app_l. lia.
    - rewrite length_alter. repeat split; [lia|].
      intros a Hlt. apply list_lookup_alter_ne. lia.
    - rewrite length_alter. repeat split; [lia|].
      intros a Hlt. apply list_lookup_alter_ne. lia. }
  destruct (IH (apply_event e w)) as (Hh' & Hl' & Ha'); [lia|assumption|].
  split; [congruence|]. split; [lia|].
  intros a Hlt. rewrite Ha', Ha; auto.
Qed.

Lemma owned_contents (base : nat) (w : world) (a : nat) (n : nat) (cells : list Condition) :
  arrays w !! a = Some cells -> contents w (mk_slice a n) = take n cells.
Proof. intros Hc. unfold contents, cells_at. now rewrite Hc. Qed.

Lemma arrays_store (w : world) (a : nat) (i : nat) (c : Condition)
    (cells : list Condition) :
  arrays w !! a = Some cells ->
  arrays (apply_event (EvStore a i c) w) !! a = Some (<[i := c]> cells) /\
  length (arrays (apply_event (EvStore a i c) w)) = length (arrays w).
Proof.
  intros Hc. unfold apply_event. cbn [arrays].
  rewrite list_lookup_alter_eq, Hc, length_alter. auto.
Qed.

Lemma arrays_sort (w : world) (a : nat) (n : nat) (cells : list Condition) :
  arrays w !! a = Some cells ->
  arrays (apply_event (EvSort a n) w) !! a =
    Some (sortConditions (take n cells) ++ drop n cells) /\
  length (arrays (apply_event (EvSort a n) w)) = length (arrays w).
Proof.
  intros Hc. unfold apply_event. cbn [arrays].
  rewrite list_lookup_alter_eq, Hc, length_alter. auto.
Qed.

Lemma alloc_spec (base : nat) (cells : list Condition) (w : world) :
  runs base (alloc cells) w (fun a w' =>
    a = length (arrays w) /\ w' = mkWorld (arrays w ++ [cells]) (held w)).
Proof.
  unfold alloc. apply runs_bind, runs_inspect.
  apply runs_bind, runs_emit; [exact I|]. apply runs_ret. auto.
Qed.

Lemma length_padded (cap : nat) (xs : list Condition) :
  length (padded cap xs) = Nat.max cap (length xs).
Proof. unfold padded. rewrite length_app, length_replicate. lia. Qed.

Lemma take_padded (cap : nat) (xs : list Condition) :
  take (length xs) (padded cap xs) = xs.
Proof. unfold padded. apply take_app_length. Qed.

(** A new array has the capacity the runtime chose. *)
Lemma length_padded_newcap (old : nat) (xs : list Condition) :
  length (padded (newcap old (length xs)) xs) = newcap old (length xs).
Proof. rewrite length_padded. pose proof (newcap_ge old (length xs)). lia. Qed.

Lemma owned_alloc (base : nat) (w : world) (cap n : nat) (xs : list Condition) :
  base <= length (arrays w) -> n = length xs ->
  let w' := mkWorld (arrays w ++ [padded cap xs]) (held w) in
  owned base w' (mk_slice (length (arrays w)) n) /\
  contents w' (mk_slice (length (arrays w)) n) = xs.
Proof.
  intros Hb -> w'.
  assert (arrays w' !! length (arrays w) = Some (padded cap xs)) as Hl
    by (apply list_lookup_middle; reflexivity).
  split.
  - split; [simpl; rewrite length_app; lia|]. split; [assumption|].
    exists (padded cap xs). split; [assumption|]. rewrite length_padded. lia.
  - rewrite (owned_contents base _ _ _ _ Hl). apply take_padded.
Qed.

Lemma append_to_nil_spec (base : nat) (s : slice) (w : world) :
  base <= length (arrays w) ->
  runs base (append_to_nil s) w (fun s' w' =>
    owned base w' s' /\ contents w' s' = contents w s).
Proof.
  intros Hb. unfold append_to_nil. apply runs_bind, runs_inspect.
  destruct (contents w s) as [|x xs] eqn:Hxs.
  - apply runs_ret. split; [split; [assumption|exact I]|reflexivity].
  - apply runs_bind. eapply runs_weaken; [apply alloc_spec|].
    intros a w' (-> & ->). apply runs_ret.
    now apply owned_alloc.
Qed.

Lemma append_spec (base : nat) (s : slice) (c : Condition) (w : world) :
  owned base w s ->
  runs base (append s c) w (fun s' w' =>
    owned base w' s' /\ contents w' s' = contents w s ++ [c] /\ s' <> nil_slice).
Proof.
  intros [Hb Ho]. unfold append. destruct s as [|a n].
  - apply runs_bind. eapply runs_weaken; [apply alloc_spec|].
    intros a w' (-> & ->). apply runs_ret.
    destruct (owned_alloc base w (newcap 0 1) 1 [c] Hb eq_refl) as [H1 H2].
    split; [exact H1|]. split; [exact H2|discriminate].
  - destruct Ho as (Ha & cells & Hcells & Hn).
    apply runs_bind, runs_inspect.
    assert (capacity w (mk_slice a n) = length cells) as ->
      by (unfold capacity, cells_at; now rewrite Hcells).
    rewrite (owned_contents base w a n cells Hcells).
    destruct (decide (n < length cells)) as [Hlt|Hge].
    + apply runs_bind, runs_emit; [exact Ha|]. apply runs_ret.
      destruct (arrays_store w a n c cells Hcells) as [Hl Hlen].
      split; [|split; [|discriminate]].
      * split; [lia|]. split; [assumption|].
        eexists. split; [exact Hl|]. rewrite length_insert. lia.
      * rewrite (owned_contents base _ _ _ _ Hl).
        rewrite (take_S_r _ _ c) by (now apply list_lookup_insert_eq).
        now rewrite take_insert_ge by lia.
    + apply runs_bind, runs_inspect.
      rewrite (owned_contents base w a n cells Hcells).
      apply runs_bind. eapply runs_weaken; [apply alloc_spec|].
      intros a' w' (-> & ->). apply runs_ret.
      assert (S n = length (take n cells ++ [c])) as Hlen
        by (rewrite length_app, length_take; simpl; lia).
      destruct (owned_alloc base w (newcap (length cells) (S n)) (S n)
                  (take n cells ++ [c]) Hb Hlen) as [H1 H2].
      split; [exact H1|]. split; [exact H2|discriminate].
Qed.

Lemma sortConditions_length (xs : list Condition) :
  length (sortConditions xs) = length xs.
Proof. symmetry. apply Permutation_length, sort.Slice_permutation. Qed.

Lemma sortConditions_io_spec (base : nat) (s : slice) (w : world) :
  owned base w s ->
  runs base (sortConditions_io s) w (fun _ w' =>
    owned base w' s /\ contents w' s = sortConditions (contents w s)).
Proof.
  intros [Hb Ho]. unfold sortConditions_io. destruct s as [|a n].
  - apply runs_ret. split; [split; auto|].
    simpl. apply Permutation_nil_l, sort.Slice_permutation.
  - destruct Ho as (Ha & cells & Hcells & Hn).
    apply runs_emit; [exact Ha|].
    destruct (arrays_sort w a n cells Hcells) as [Hl Hla].
    assert (length (sortConditions (take n cells)) = n) as Hlen
      by (rewrite sortConditions_length, length_take; lia).
    split.
    + split; [lia|]. split; [assumption|].
      eexists. split; [exact Hl|]. rewrite length_app, length_drop. lia.
    + rewrite (owned_contents base _ _ _ _ Hl), (owned_contents base w a n cells Hcells).
      now apply take_app_length'.
Qed.

(** One field assignment through a pointer, in a slice whose cell [p]
    holds [c1]. *)
Lemma modify_spec (base : nat) (s : slice) (p : nat) (f : Condition -> Condition)
    (w : world) (l0 : list Condition) (c1 : Condition) :
  owned base w s -> p < length l0 -> contents w s = <[p := c1]> l0 ->
  runs base (modify s p f) w (fun _ w' =>
    owned base w' s /\ contents w' s = <[p := f c1]> l0).
Proof.
  intros [Hb Ho] Hp Hc. unfold modify, load. apply runs_bind, runs_inspect.
  rewrite Hc, list_lookup_insert_eq by assumption. simpl.
  destruct s as [|a n].
  - simpl in Hc. symmetry in Hc. apply (f_equal length) in Hc.
    rewrite length_insert in Hc. simpl in Hc. lia.
  - destruct Ho as (Ha & cells & Hcells & Hn). unfold store.
    apply runs_emit; [exact Ha|].
    destruct (arrays_store w a p (f c1) cells Hcells) as [Hl Hla].
    rewrite (owned_contents base w a n cells Hcells) in Hc.
    assert (p < n) as Hpn.
    { apply (f_equal length) in Hc. rewrite length_insert, length_take in Hc. lia. }
    split.
    + split; [lia|]. split; [assumption|].
      eexists. split; [exact Hl|]. rewrite length_insert. lia.
    + rewrite (owned_contents base _ _ _ _ Hl).
      rewrite take_insert_lt by assumption. rewrite Hc.
      apply list_insert_insert_eq.
Qed.

Lemma runs_bind_spec {A B : Type} (base : nat) (m : M A) (f : A -> M B) (w : world)
    (mid : A -> world -> Prop) (post : B -> world -> Prop) :
  runs base m w mid ->
  (forall a w1, mid a w1 -> runs base (f a) w1 post) ->
  runs base (m ≫= f) w post.
Proof. intros Hm Hf. apply runs_bind. eapply runs_weaken; eauto. Qed.

(** [set_io] computes what [set] computes, in arrays at or above [base]. *)
Lemma set_io_spec (base : nat) (now : Time) (s : slice) (t : CType)
    (st : ConditionStatus) (reason msg : string) (w : world) :
  owned base w s ->
  runs base (set_io now s t st reason msg) w (fun s' w' =>
    owned base w' s' /\
    contents w' s' = set now (contents w s) t st reason msg /\
    s' <> nil_slice).
Proof.
  intros Ho. unfold set_io, get_io, set, upsert.
  apply runs_bind, runs_inspect.
  pose proof (set_facts.get_split (contents w s) t) as Hg.
  remember (contents w s) as l0 eqn:El0.
  destruct (get l0 t) as [p|].
  - destruct Hg as (l1 & c & l2 & Hl0 & Hp & _ & _).
    assert (l0 !! p = Some c) as Hlk by (rewrite Hl0, <- Hp; now apply list_lookup_middle).
    assert (p < length l0) as Hlt by (apply lookup_lt_is_Some; eauto).
    assert (s <> nil_slice) as Hs.
    { intros ->. simpl in El0. rewrite El0 in Hlt. simpl in Hlt. lia. }
    rewrite Hlk.
    set (c1 := if negb (String.eqb (Reason c) reason)
               then with_LastTransitionTime now c else c).
    eapply runs_bind_spec with
      (mid := fun s' w' => s' = s /\ owned base w' s /\
                contents w' s =
                  <[p := with_Message msg (with_Reason reason (with_Status st c1))]> l0).
    + apply runs_bind. unfold load. apply runs_inspect.
      rewrite <- El0, Hlk. simpl. fold c1.
      eapply runs_bind_spec with
        (mid := fun _ w' => owned base w' s /\ contents w' s = <[p := c1]> l0).
      { subst c1. destruct (negb (String.eqb (Reason c) reason)).
        - apply modify_spec; auto. rewrite <- El0. symmetry. now apply list_insert_id.
        - apply runs_ret. split; [assumption|].
          rewrite <- El0. symmetry. now apply list_insert_id. }
      intros _ w1 [Ho1 Hc1].
      eapply runs_bind_spec; [now apply (modify_spec base s p _ w1 l0 c1)|].
      intros _ w2 [Ho2 Hc2].
      eapply runs_bind_spec; [now apply (modify_spec base s p _ w2 l0 _ Ho2 Hlt Hc2)|].
      intros _ w3 [Ho3 Hc3].
      eapply runs_bind_spec; [now apply (modify_spec base s p _ w3 l0 _ Ho3 Hlt Hc3)|].
      intros _ w4 [Ho4 Hc4]. apply runs_ret. auto.
    + intros s' w' (-> & Ho' & Hc').
      eapply runs_bind_spec; [now apply sortConditions_io_spec|].
      intros _ w'' [Ho'' Hc'']. apply runs_ret.
      split; [assumption|]. split; [|assumption].
      rewrite Hc'', Hc'. f_equal. f_equal. subst c1.
      now destruct (negb (String.eqb (Reason c) reason)).
  - eapply runs_bind_spec; [now apply append_spec|].
    intros s' w' (Ho' & Hc' & Hs').
    eapply runs_bind_spec; [now apply sortConditions_io_spec|].
    intros _ w'' [Ho'' Hc'']. apply runs_ret.
    split; [assumption|]. split; [|assumption].
    rewrite Hc'', Hc', <- El0. reflexivity.
Qed.

(** The frame every mutating helper shares: read the accessor, copy, run
    [body] on the copy, write the result back. *)
Definition write_back (body : slice -> M slice) : M unit :=
  got ← GetConditions_io;
  conds ← append_to_nil got;
  conds ← body conds;
  SetConditions_io conds.

Lemma bind_run {A B : Type} (m : M A) (f : A -> M B) (w w1 w2 : world)
    (a : A) (b : B) (t1 t2 : list event) :
  m w = (a, w1, t1) -> f a w1 = (b, w2, t2) -> (m ≫= f) w = (b, w2, t1 ++ t2).
Proof. intros Hm Hf. unfold mbind, M_bind. now rewrite Hm, Hf. Qed.

Lemma private_not_accessor (base : nat) (tr : list event) :
  Forall (private base) tr ->
  List.filter is_Get tr = [] /\ List.filter is_Set tr = [].
Proof.
  induction 1 as [|e tr He _ [IH1 IH2]]; [auto|].
  destruct e; simpl in *; try contradiction; auto.
Qed.

Lemma prefix_before_last (x y : event) (mid tr1 tr2 : list event) :
  x :: mid ++ [y] = tr1 ++ tr2 -> tr2 <> [] ->
  tr1 = [] \/ exists m1 m2, tr1 = x :: m1 /\ mid = m1 ++ m2.
Proof.
  intros Heq Hne. destruct tr1 as [|e tr1]; [now left|right].
  simpl in Heq. injection Heq as <- Heq.
  destruct (exists_last Hne) as (tr2' & z & ->).
  rewrite app_assoc in Heq. apply app_inj_tail in Heq as [-> _]. eauto.
Qed.

Lemma visible_frame (base : nat) (w w' : world) :
  base = length (arrays w) -> valid w (held w) ->
  held w' = held w ->
  (forall a, a < base -> arrays w' !! a = arrays w !! a) ->
  visible w' = visible w.
Proof.
  intros -> Hv Hh Ha. unfold visible. rewrite Hh.
  destruct (held w) as [|a n]; [reflexivity|].
  destruct Hv as [Hlt _]. unfold contents, cells_at. now rewrite Ha.
Qed.

Lemma write_back_copy_on_write (body : slice -> M slice)
    (f : list Condition -> list Condition) (w : world) :
  valid w (held w) ->
  (forall base w1 s, owned base w1 s ->
     runs base (body s) w1 (fun s' w' =>
       owned base w' s' /\ contents w' s' = f (contents w1 s) /\ s' <> nil_slice)) ->
  copy_on_write (write_back body) f w.
Proof.
  intros Hv Hbody. set (base := length (arrays w)).
  pose proof (append_to_nil_spec base (held w) w (le_n _)) as H1.
  unfold runs in H1.
  destruct (append_to_nil (held w) w) as [[s1 w1] t1] eqn:E1.
  destruct H1 as (Hw1 & Hp1 & Ho1 & Hc1).
  pose proof (Hbody base w1 s1 Ho1) as H2. unfold runs in H2.
  destruct (body s1 w1) as [[s2 w2] t2] eqn:E2.
  destruct H2 as (Hw2 & Hp2 & Ho2 & Hc2 & Hnn).
  assert (write_back body w =
          (tt, apply_event (EvSetConditions s2) w2,
           [EvGetConditions] ++ t1 ++ t2 ++ [EvSetConditions s2])) as Erun.
  { unfold write_back.
    apply (bind_run _ _ w w _ (held w)); [reflexivity|].
    apply (bind_run _ _ w w1 _ s1); [exact E1|].
    apply (bind_run _ _ w1 w2 _ s2); [exact E2|reflexivity]. }
  replace ([EvGetConditions] ++ t1 ++ t2 ++ [EvSetConditions s2])
    with (EvGetConditions :: (t1 ++ t2) ++ [EvSetConditions s2]) in Erun
    by (simpl; now rewrite <- app_assoc).
  assert (Forall (private base) (t1 ++ t2)) as Hmid by (apply Forall_app; auto).
  assert (w2 = replay (t1 ++ t2) w) as Hw2' by (rewrite replay_app; congruence).
  remember (t1 ++ t2) as mid eqn:Emid. clear Emid.
  unfold copy_on_write. rewrite Erun. fold base.
  destruct (private_frame base mid w (le_n _) Hmid) as (Hheld & Hlen & Hframe).
  destruct (private_not_accessor base _ Hmid) as [HnoGet HnoSet].
  assert (replay (EvGetConditions :: mid ++ [EvSetConditions s2]) w =
          apply_event (EvSetConditions s2) w2) as Hreplay.
  { change (replay (mid ++ [EvSetConditions s2]) w = apply_event (EvSetConditions s2) w2).
    rewrite replay_app, <- Hw2'. reflexivity. }
  assert (visible (apply_event (EvSetConditions s2) w2) = f (visible w)) as Hnew.
  { change (contents w2 s2 = f (contents w (held w))). now rewrite Hc2, Hc1. }
  exists mid, s2.
  split; [reflexivity|].
  split; [assumption|].
  split.
  { cbn [List.filter is_Get]. rewrite List.filter_app, HnoGet. reflexivity. }
  split.
  { cbn [List.filter is_Set]. rewrite List.filter_app, HnoSet. reflexivity. }
  split; [now rewrite Hreplay|].
  split.
  { intros a Hlt. change (arrays w2 !! a = arrays w !! a). rewrite Hw2'. now apply Hframe. }
  split.
  { destruct s2 as [|a n]; [contradiction|]. destruct Ho2 as (_ & Hba & _). eauto. }
  split; [reflexivity|].
  split; [exact Hnew|].
  intros tr1 tr2 Hsplit. destruct tr2 as [|e tr2].
  - right. split; [reflexivity|]. rewrite app_nil_r in Hsplit. subst tr1.
    now rewrite Hreplay.
  - left.
    destruct (prefix_before_last _ _ _ _ _ Hsplit) as [->|(m1 & m2 & -> & Hm)];
      [discriminate|reflexivity|].
    rewrite Hm in Hmid. apply Forall_app in Hmid as [Hm1 _].
    destruct (private_frame base m1 w (le_n _) Hm1) as (Hh1 & _ & Hf1).
    change (visible (replay m1 w) = visible w). now apply (visible_frame base).
Qed.

(** C6.  From a store in which the accessor holds a valid slice, each of
    [MarkTrue], [MarkFalse] and [MarkUnknown] calls [GetConditions] once,
    then [SetConditions] once, last.  In between it stores only into arrays
    that it allocated itself, so no cell of the slice it read (nor of any
    array that existed) changes.  The slice it hands to [SetConditions]
    lies in a new array and holds the set that the value-level helper
    computes, which is [upsert] followed by the sort.  At every point of
    the run the accessor shows the old set, or, at the end, the new one. *)
Theorem Mark_copy_on_write (now : Time) (t : CType) (reason msg : string)
    (w : world) :
  valid w (held w) ->
  copy_on_write (MarkTrue_io now t)
    (fun old => conds (MarkTrue now (mkStub old) t)) w /\
  copy_on_write (MarkFalse_io now t reason msg)
    (fun old => conds (MarkFalse now (mkStub old) t reason msg)) w /\
  copy_on_write (MarkUnknown_io now t reason msg)
    (fun old => conds (MarkUnknown now (mkStub old) t reason msg)) w /\
  (forall old s r m,
     set now old t s r m = sortConditions (upsert now old t s r m) /\
     StronglySorted (sort.ordered lexicographicLess) (set now old t s r m)).
Proof.
  intros Hv.
  split; [|split; [|split]].
  - apply (write_back_copy_on_write
             (fun conds => set_io now conds t True_ "" "")); [assumption|].
    intros base w1 s Ho. now apply set_io_spec.
  - apply (write_back_copy_on_write
             (fun conds => set_io now conds t False_ reason msg)); [assumption|].
    intros base w1 s Ho. now apply set_io_spec.
  - apply (write_back_copy_on_write
             (fun conds => set_io now conds t Unknown reason msg)); [assumption|].
    intros base w1 s Ho. now apply set_io_spec.
  - intros old s r m. split; [reflexivity|]. apply set_props.sortConditions_sorted.
Qed.

(** [SyncReady] follows the same discipline. *)
Lemma SyncReady_copy_on_write (now : Time) (w : world) :
  valid w (held w) ->
  copy_on_write (SyncReady_io now) (fun old => conds (SyncReady now (mkStub old))) w.
Proof.
  intros Hv.
  set (body := fun conds : slice =>
         found ← inspect (fun w => firstFalse (contents w conds));
         match found with
         | Some (falseReason, falseMessage) =>
             set_io now conds Ready False_ falseReason falseMessage
         | None => set_io now conds Ready True_ "" ""
         end).
  assert (SyncReady_io now w = write_back body w) as Erun.
  { unfold SyncReady_io, write_back, body, mbind, M_bind, inspect.
    destruct (GetConditions_io w) as [[got w0] t0].
    destruct (append_to_nil got w0) as [[s1 w1] t1].
    destruct (firstFalse (contents w1 s1)) as [[r m]|].
    - destruct (set_io now s1 Ready False_ r m w1) as [[s2 w2] t2].
      now destruct (SetConditions_io s2 w2) as [[u w3] t3].
    - destruct (set_io now s1 Ready True_ "" "" w1) as [[s2 w2] t2].
      now destruct (SetConditions_io s2 w2) as [[u w3] t3]. }
  unfold copy_on_write. rewrite Erun.
  apply (write_back_copy_on_write body
           (fun old => conds (SyncReady now (mkStub old))) w Hv).
  intros base w1 s Ho. unfold body. apply runs_bind, runs_inspect.
  unfold SyncReady. simpl.
  destruct (firstFalse (contents w1 s)) as [[r m]|]; now apply set_io_spec.
Qed.

Lemma IsTrue_io_run (t : CType) (w : world) :
  IsTrue_io t w = (IsTrue (mkStub (visible w)) t, w, [EvGetConditions]).
Proof.
  unfold IsTrue_io, IsTrue, visible.
  apply (bind_run _ _ w w _ (held w) _ [EvGetConditions] []); [reflexivity|].
  apply (bind_run _ _ w w _ (get (contents w (held w)) t) _ [] []); [reflexivity|].
  simpl. destruct (get (contents w (held w)) t) as [p|]; [|reflexivity].
  apply (bind_run _ _ w w _ (default zeroCondition (contents w (held w) !! p)) _ [] []);
    [reflexivity|].
  now destruct (contents w (held w) !! p).
Qed.

(** C10.  [IsTrue] calls [GetConditions] once and nothing else: no
    [SetConditions], no store.  The store and the set the accessor shows
    are the same after the call as before it, the result is the value-level
    [IsTrue] of that set, and a second call returns the same result. *)
Theorem IsTrue_reads_only (t : CType) (w : world) :
  match IsTrue_io t w with
  | (b, w', tr) =>
      tr = [EvGetConditions] /\
      List.filter is_Set tr = [] /\
      w' = w /\
      visible w' = visible w /\
      b = IsTrue (mkStub (visible w)) t /\
      fst (fst (IsTrue_io t w')) = b
  end.
Proof.
  rewrite IsTrue_io_run. rewrite IsTrue_io_run. simpl. auto 10.
Qed.

End logic.

End runtime_facts.

(* ====================================================================== *)
(** ** The theorems at concrete sets *)
(* ====================================================================== *)

Module examples.
Import conditions props sort_facts api_props invariants runtime runtime_facts.
Local Open Scope Z_scope.

(** The sets of the package's tests, with [sort.Slice] as it runs on short
    slices, the test file's [stub] as accessor, and a doubling allocator. *)
Definition cache1 : stub := mkStub [mkCondition "Cache" True_ "" "" 1].

Definition unsorted_two_False : stub :=
  mkStub [mkCondition "Z" False_ "r1" "m1" 0; mkCondition "A" False_ "r2" "m2" 0].

Definition history_ABC : list (Time * Call) :=
  [(1, CallMarkTrue "B"); (2, CallMarkTrue "A"); (3, CallMarkUnknown "C" "" "")].

Example TestMarkHelpersAndSorting :
  map Type_ (conds (calls history_ABC (mkStub []))) = ["A"; "B"; "C"].
Proof. reflexivity. Qed.

Example TestSyncReadyAllTrue :
  let obj := SyncReady 3 (MarkTrue 2 (MarkTrue 1 (mkStub []) "Database") "API") in
  IsTrue obj Ready = true /\ map Type_ (conds obj) = ["Ready"; "API"; "Database"].
Proof. split; reflexivity. Qed.

Example TestSyncReadyWithFalse :
  let obj := SyncReady 3 (MarkFalse 2 (MarkTrue 1 (mkStub []) "API")
                            "Database" "DBDown" "database unreachable") in
  IsTrue obj Ready = false /\
  entry (conds obj) Ready =
    Some (mkCondition Ready False_ "DBDown" "database unreachable" 3).
Proof. split; reflexivity. Qed.

Example SyncReady_Unknown_is_neutral :
  entry (conds (SyncReady 2 (MarkUnknown 1 (mkStub []) "X" "" ""))) Ready =
  Some (mkCondition Ready True_ "" "" 2).
Proof. reflexivity. Qed.


(** C3 at the history of [TestMarkHelpersAndSorting]. *)
Lemma calls_keep_sort_invariant_witness :
  sort_invariant (GetConditions (calls history_ABC (mkStub []))) /\
  (forall c, c ∈ GetConditions (calls history_ABC (mkStub [])) -> Type_ c = Ready ->
     GetConditions (calls history_ABC (mkStub [])) !! 0%nat = Some c).
Proof.
  exact (calls_keep_sort_invariant history_ABC (mkStub []) eq_refl).
Defined.

(** C4 at the same history. *)
Lemma calls_keep_types_unique_witness :
  NoDup (map Type_ (GetConditions (calls history_ABC (mkStub [])))) /\
  (forall t, (length (filter (has_type t)
                (GetConditions (calls history_ABC (mkStub [])))) <= 1)%nat).
Proof.
  apply (calls_keep_types_unique history_ABC (mkStub [])). simpl. constructor.
Defined.

(** C9 at the set of one "Cache" entry. *)
Lemma repeated_call_changes_nothing_witness :
  GetConditions (MarkFalse 3 (MarkFalse 2 cache1 "Cache" "CacheDown" "cache offline")
                   "Cache" "CacheDown" "cache offline") =
  GetConditions (MarkFalse 2 cache1 "Cache" "CacheDown" "cache offline").
Proof.
  refine (proj1 (proj2
    (repeated_call_changes_nothing 2 3 cache1 "Cache" "CacheDown" "cache offline" _))).
  simpl. repeat constructor. intros Hin. inversion Hin.
Defined.

(** C9 fails for [SyncReady] on a set that is not in sorted order: the
    first call copies the reason of "Z", which stands first, and sorts; the
    second call then finds "A" first and writes its reason. *)
Lemma SyncReady_twice_differs :
  GetConditions (SyncReady 2 (SyncReady 1 unsorted_two_False)) <>
  GetConditions (SyncReady 1 unsorted_two_False).
Proof. vm_compute. discriminate. Qed.

(** The counterexample does not depend on how [sort.Slice] sorts: the
    Types are unique, so every sorter computes the same two sets. *)
Remark SyncReady_differs_for_every_sorter (S : sort.Sorter) :
  GetConditions (@SyncReady S stub _ 2 (@SyncReady S stub _ 1 unsorted_two_False)) <>
  GetConditions (@SyncReady S stub _ 1 unsorted_two_False).
Proof.
  assert (NoDup (map Type_ (conds unsorted_two_False))) as Hnd
    by (apply (bool_decide_unpack _); vm_compute; exact I).
  rewrite (SyncReady_any_sorter S insertion_sorter 1 _ Hnd).
  rewrite (SyncReady_any_sorter S insertion_sorter 2).
  - vm_compute. discriminate.
  - apply (bool_decide_unpack _). vm_compute. exact I.
Qed.

(** The store after [MarkTrue "B"] and [MarkTrue "A"]: one array, held by
    the accessor. *)
Definition store_AB : world :=
  mkWorld [[mkCondition "A" True_ "" "" 2; mkCondition "B" True_ "" "" 1]]
          (mk_slice 0 2).

(** The events of [MarkFalse "B"] from there: the copy goes to array 1,
    the four field assignments and the sort work on array 1, and array 0
    is as it was. *)
Example MarkFalse_io_trace :
  let '(_, w', tr) := MarkFalse_io 3 "B" "r" "m" store_AB in
  tr = [EvGetConditions;
        EvAlloc [mkCondition "A" True_ "" "" 2; mkCondition "B" True_ "" "" 1];
        EvStore 1 1 (mkCondition "B" True_ "" "" 3);
        EvStore 1 1 (mkCondition "B" False_ "" "" 3);
        EvStore 1 1 (mkCondition "B" False_ "r" "" 3);
        EvStore 1 1 (mkCondition "B" False_ "r" "m" 3);
        EvSort 1 2;
        EvSetConditions (mk_slice 1 2)] /\
  arrays w' !! 0%nat = arrays store_AB !! 0%nat /\
  visible w' = [mkCondition "A" True_ "" "" 2; mkCondition "B" False_ "r" "m" 3].
Proof. vm_compute. auto. Qed.

(** C6 at that store. *)
Lemma Mark_copy_on_write_witness :
  copy_on_write (MarkFalse_io 3 "B" "r" "m")
    (fun old => conds (MarkFalse 3 (mkStub old) "B" "r" "m")) store_AB.
Proof.
  refine (proj1 (proj2 (Mark_copy_on_write 3 "B" "r" "m" store_AB _))).
  vm_compute. lia.
Defined.

End examples.

(* ====================================================================== *)
(** ** Further properties of the helpers *)
(* ====================================================================== *)

Module more_props.
Import conditions props less_facts set_facts set_props api_props invariants.

(** The Type a call writes: the marked one, or [Ready] for [SyncReady]. *)
Definition marked_type (c : Call) : CType :=
  match c with
  | CallMarkTrue t | CallMarkFalse t _ _ | CallMarkUnknown t _ _ => t
  | CallSyncReady => Ready
  end.

(** The status, reason and message a mark passes to [set]. *)
Definition mark_args (c : Call) : option (ConditionStatus * string * string) :=
  match c with
  | CallMarkTrue _ => Some (True_, "", "")
  | CallMarkFalse _ reason msg => Some (False_, reason, msg)
  | CallMarkUnknown _ reason msg => Some (Unknown, reason, msg)
  | CallSyncReady => None
  end.

(** A lookup of [t] finds an entry with these fields. *)
Definition holds (conds : list Condition) (t : CType) (s : ConditionStatus)
    (reason msg : string) : Prop :=
  exists c, entry conds t = Some c /\
    Type_ c = t /\ Status c = s /\ Reason c = reason /\ Message c = msg.

(** The reason [SyncReady] passes to [set]. *)
Definition aggregate_reason (conds : list Condition) : string :=
  match firstFalse conds with
  | Some (r, _) => r
  | None => ""
  end.

Lemma StronglySorted_lookup {A : Type} (R : A -> A -> Prop) (l : list A) :
  StronglySorted R l ->
  forall i j a b, i < j -> l !! i = Some a -> l !! j = Some b -> R a b.
Proof.
  induction 1 as [|x l Hs IH Hx]; intros i j a b Hij Ha Hb.
  - now rewrite lookup_nil in Ha.
  - destruct j as [|j]; [lia|]. simpl in Hb. destruct i as [|i].
    + simpl in Ha. injection Ha as <-. rewrite Forall_forall in Hx.
      apply Hx. eapply list_elem_of_lookup_2. exact Hb.
    + simpl in Ha. apply (IH i j); auto. lia.
Qed.

Lemma entry_Some_iff (conds : list Condition) (t : CType) :
  is_Some (entry conds t) <-> t ∈ map Type_ conds.
Proof.
  pose proof (entry_split conds t) as Hs. destruct (entry conds t) as [c|].
  - split; [intros _|eauto]. destruct Hs as (l1 & l2 & -> & _ & <-).
    apply list_elem_of_fmap_2. apply elem_of_app. right. apply list_elem_of_here.
  - split; [intros [x Hx]; discriminate|]. intros Hin.
    apply list_elem_of_fmap in Hin as (c & -> & Hc).
    rewrite Forall_forall in Hs. now destruct (Hs c Hc).
Qed.

Lemma upsert_filter_type (now : Time) (conds : list Condition) (t t' : CType)
    (s : ConditionStatus) (reason msg : string) :
  t' <> t ->
  filter (has_type t') (upsert now conds t s reason msg) = filter (has_type t') conds.
Proof.
  intros Hne. pose proof (upsert_spec now conds t s reason msg) as H.
  destruct (entry conds t) as [c|].
  - destruct H as (l1 & l2 & -> & _ & Hc & ->). rewrite !filter_app. f_equal.
    rewrite (filter_cons_False _ c) by (unfold has_type; congruence).
    rewrite filter_cons_False; [reflexivity|]. unfold has_type. simpl. congruence.
  - destruct H as [_ ->]. rewrite filter_app.
    rewrite filter_cons_False; [now rewrite app_nil_r|].
    unfold has_type. simpl. congruence.
Qed.

(** X13.  [lexicographicLess] is a strict weak ordering on all conditions,
    which is what [sort.Slice] asks of it also where Types repeat: on top of
    being irreflexive and transitive, "not less" is transitive, and two
    conditions are less in neither direction exactly when they have the same
    Type, whatever their other fields. *)
Theorem lexicographicLess_weak_order :
  (forall a b c, lexicographicLess a b = false -> lexicographicLess b c = false ->
                 lexicographicLess a c = false) /\
  (forall a b, (lexicographicLess a b = false /\ lexicographicLess b a = false) <->
               Type_ a = Type_ b) /\
  (forall a a' b b', Type_ a = Type_ a' -> Type_ b = Type_ b' ->
                     lexicographicLess a b = lexicographicLess a' b').
Proof.
  split; [apply less_negtrans|]. split.
  - intros a b. split.
    + intros [Hab Hba]. destruct (less_false_inv _ _ Hab) as [Heq|Hlt]; [assumption|].
      congruence.
    + intros Heq. split; apply less_same_type; congruence.
  - intros a a' b b' Ha Hb. unfold lexicographicLess. now rewrite Ha, Hb.
Qed.

Section with_sorter.
Context `{!sort.Sorter}.

Lemma set_entry_other (now : Time) (conds : list Condition) (t t' : CType)
    (s : ConditionStatus) (reason msg : string) :
  t' <> t -> unique_type t' conds ->
  entry (set now conds t s reason msg) t' = entry conds t'.
Proof.
  intros Hne Hu. rewrite !entry_head_filter.
  assert (filter (has_type t') (set now conds t s reason msg) ≡ₚ
          filter (has_type t') conds) as Hp.
  { rewrite <- set_permutation. now rewrite upsert_filter_type. }
  unfold unique_type in Hu.
  destruct (filter (has_type t') conds) as [|x [|y l]]; simpl in Hu; try lia.
  - apply Permutation_nil_r in Hp. now rewrite Hp.
  - apply Permutation_singleton_r in Hp. now rewrite Hp.
Qed.

Lemma set_types (now : Time) (conds : list Condition) (t : CType)
    (s : ConditionStatus) (reason msg : string) :
  map Type_ (set now conds t s reason msg) ≡ₚ
  match entry conds t with
  | Some _ => map Type_ conds
  | None => map Type_ conds ++ [t]
  end.
Proof.
  rewrite <- (upsert_types now conds t s reason msg).
  apply Permutation_map. symmetry. apply set_permutation.
Qed.

(** What [set] leaves: the entry written and the entries of other Types. *)
Lemma set_decomposition (now : Time) (conds : list Condition) (t : CType)
    (s : ConditionStatus) (reason msg : string) :
  unique_type t conds ->
  set now conds t s reason msg ≡ₚ
  written now (entry conds t) t s reason msg :: filter (fun x => ~ has_type t x) conds.
Proof.
  intros Hu. rewrite <- set_permutation.
  rewrite <- (filter_app_complement (has_type t) (upsert now conds t s reason msg)).
  rewrite upsert_filter_same, upsert_filter_other.
  unfold unique_type in Hu.
  destruct (filter (has_type t) conds) as [|x [|y l]]; simpl in *; try reflexivity; lia.
Qed.

Lemma set_commute (now1 now2 : Time) (conds : list Condition) (t1 t2 : CType)
    (s1 s2 : ConditionStatus) (r1 m1 r2 m2 : string) :
  t1 <> t2 -> NoDup (map Type_ conds) ->
  set now1 (set now2 conds t2 s2 r2 m2) t1 s1 r1 m1 =
  set now2 (set now1 conds t1 s1 r1 m1) t2 s2 r2 m2.
Proof.
  intros Hne Hnd.
  assert (forall nowa nowb ta tb sa sb ra ma rb mb, ta <> tb ->
    set nowa (set nowb conds tb sb rb mb) ta sa ra ma ≡ₚ
    written nowa (entry conds ta) ta sa ra ma ::
    written nowb (entry conds tb) tb sb rb mb ::
    filter (fun x => ~ has_type ta x) (filter (fun x => ~ has_type tb x) conds)) as Hdec.
  { intros nowa nowb ta tb sa sb ra ma rb mb Hab.
    pose proof (set_NoDup nowb conds tb sb rb mb Hnd) as Hnd'.
    rewrite (set_decomposition nowa _ ta sa ra ma (NoDup_unique_type _ _ Hnd')).
    rewrite (set_entry_other nowb conds tb ta sb rb mb Hab (NoDup_unique_type _ _ Hnd)).
    apply perm_skip.
    rewrite (set_decomposition nowb conds tb sb rb mb (NoDup_unique_type _ _ Hnd)).
    rewrite filter_cons_True; [reflexivity|].
    unfold has_type. destruct (entry conds tb); simpl; congruence. }
  apply sorted_unique.
  - apply set_NoDup. now apply set_NoDup.
  - apply sortConditions_sorted.
  - apply sortConditions_sorted.
  - rewrite (Hdec now1 now2 t1 t2) by assumption.
    rewrite (Hdec now2 now1 t2 t1) by congruence.
    rewrite perm_swap. do 2 apply perm_skip.
    rewrite !list_filter_filter.
    rewrite (list_filter_iff (fun a => ~ has_type t1 a /\ ~ has_type t2 a)
               (fun a => ~ has_type t2 a /\ ~ has_type t1 a)) by tauto.
    reflexivity.
Qed.

Context {O : Type} `{!ConditionsAccessor O}.

Lemma call_mark (now : Time) (obj : O) (c : Call) (s : ConditionStatus)
    (reason msg : string) :
  mark_args c = Some (s, reason, msg) ->
  GetConditions (call now obj c) =
  set now (GetConditions obj) (marked_type c) s reason msg.
Proof.
  destruct c; simpl; intros [= <- <- <-];
    unfold MarkTrue, MarkFalse, MarkUnknown; now rewrite Get_SetConditions.
Qed.

Lemma call_as_set (now : Time) (obj : O) (c : Call) :
  exists s reason msg,
    GetConditions (call now obj c) =
    set now (GetConditions obj) (marked_type c) s reason msg.
Proof.
  destruct c; simpl; unfold MarkTrue, MarkFalse, MarkUnknown, SyncReady;
    try destruct (firstFalse _) as [[r m]|]; rewrite Get_SetConditions; eauto.
Qed.

(** X1.  [get] finds the first entry of the Type asked for, in slice order:
    it returns [p] exactly when the entry at [p] has that Type and no entry
    before [p] has it, and it returns nil exactly when no entry has it. *)
Theorem get_first_match (conds : list Condition) (t : CType) :
  (forall p, get conds t = Some p <->
     (exists c, conds !! p = Some c /\ Type_ c = t) /\
     (forall j c, j < p -> conds !! j = Some c -> Type_ c <> t)) /\
  (get conds t = None <-> forall c, c ∈ conds -> Type_ c <> t).
Proof.
  pose proof (get_split conds t) as Hs. split.
  - intros p. split.
    + intros Hg. rewrite Hg in Hs.
      destruct Hs as (l1 & c & l2 & -> & <- & Hl1 & Hc). split.
      * exists c. split; [now apply list_lookup_middle|assumption].
      * intros j c' Hj Hlk. rewrite lookup_app_l in Hlk by assumption.
        rewrite Forall_forall in Hl1. apply Hl1. eapply list_elem_of_lookup_2, Hlk.
    + intros [(c & Hlk & Hc) Hbefore]. destruct (get conds t) as [p'|].
      * destruct Hs as (l1 & c' & l2 & -> & <- & Hl1 & Hc'). f_equal.
        destruct (Nat.lt_trichotomy p (length l1)) as [Hlt|[Heq|Hgt]]; [|auto|].
        -- rewrite lookup_app_l in Hlk by assumption.
           rewrite Forall_forall in Hl1.
           destruct (Hl1 c); [eapply list_elem_of_lookup_2, Hlk|assumption].
        -- destruct (Hbefore (length l1) c' Hgt); [now apply list_lookup_middle|assumption].
      * rewrite Forall_forall in Hs.
        destruct (Hs c); [eapply list_elem_of_lookup_2, Hlk|assumption].
  - split.
    + intros Hg. rewrite Hg in Hs. now apply Forall_forall.
    + intros Hno. apply get_absent. now apply Forall_forall.
Qed.

(** X2.  Read after write.  In a set with at most one entry of Type [t],
    after [MarkTrue] a lookup of [t] finds status [True] with empty reason
    and message (whatever they were), after [MarkFalse] and [MarkUnknown]
    it finds the status, reason and message of the call; [IsTrue] of [t] is
    then true after [MarkTrue] and false after the other two. *)
Theorem Mark_then_lookup (now : Time) (obj : O) (t : CType) (reason msg : string) :
  unique_type t (GetConditions obj) ->
  holds (GetConditions (MarkTrue now obj t)) t True_ "" "" /\
  holds (GetConditions (MarkFalse now obj t reason msg)) t False_ reason msg /\
  holds (GetConditions (MarkUnknown now obj t reason msg)) t Unknown reason msg /\
  IsTrue (MarkTrue now obj t) t = true /\
  IsTrue (MarkFalse now obj t reason msg) t = false /\
  IsTrue (MarkUnknown now obj t reason msg) t = false.
Proof.
  intros Hu. rewrite !IsTrue_entry. unfold holds, MarkTrue, MarkFalse, MarkUnknown.
  rewrite !Get_SetConditions, !set_entry by assumption.
  repeat split; try (eexists; split; [reflexivity|]);
    destruct (entry (GetConditions obj) t); simpl; auto.
Qed.

(** X3.  A call leaves the lookups of other Types alone.  For a Type [t']
    other than the marked one, with at most one entry in the set, the entry
    a lookup of [t'] finds and the answer of [IsTrue] are the same after
    [MarkTrue], [MarkFalse] and [MarkUnknown] as before, and the same after
    [SyncReady] when [t'] is not [Ready]. *)
Theorem calls_keep_other_lookups (now : Time) (obj : O) (c : Call) (t' : CType) :
  t' <> marked_type c -> unique_type t' (GetConditions obj) ->
  entry (GetConditions (call now obj c)) t' = entry (GetConditions obj) t' /\
  IsTrue (call now obj c) t' = IsTrue obj t'.
Proof.
  intros Hne Hu.
  assert (entry (GetConditions (call now obj c)) t' = entry (GetConditions obj) t') as He.
  { destruct (call_as_set now obj c) as (s & r & m & ->). now apply set_entry_other. }
  split; [assumption|]. rewrite !IsTrue_entry. now rewrite He.
Qed.

(** X4.  The aggregate through the query.  In a set with at most one
    [Ready] entry, [IsTrue] of [Ready] after [SyncReady] is true exactly
    when no entry other than [Ready] has status [False]; in particular it
    is true after [SyncReady] on the empty set. *)
Theorem SyncReady_then_IsTrue (now : Time) (obj : O) :
  unique_type Ready (GetConditions obj) ->
  (IsTrue (SyncReady now obj) Ready = true <->
   forall c, c ∈ GetConditions obj -> Type_ c <> Ready -> Status c <> False_) /\
  (GetConditions obj = [] -> IsTrue (SyncReady now obj) Ready = true).
Proof.
  intros Hu.
  assert (IsTrue (SyncReady now obj) Ready = true <-> no_False (GetConditions obj)) as Hiff.
  { rewrite IsTrue_entry. unfold SyncReady.
    pose proof (firstFalse_spec (GetConditions obj)) as Hff.
    destruct (firstFalse (GetConditions obj)) as [[r m]|] eqn:Ef;
      rewrite Get_SetConditions, set_entry by assumption.
    - split.
      + destruct (entry (GetConditions obj) Ready); simpl; discriminate.
      + intros Hnf. rewrite (firstFalse_None _ Hnf) in Ef. discriminate.
    - split; [now intros _|]. intros _.
      destruct (entry (GetConditions obj) Ready); reflexivity. }
  split.
  - rewrite Hiff. apply no_False_iff.
  - intros Hempty. apply Hiff. rewrite Hempty. constructor.
Qed.

(** X5.  The Types of the set.  A call adds the Type it writes when the set
    has no entry of it, so the set grows by one entry, and adds nothing when
    it has one, so the length stays; the other Types are as before. *)
Theorem call_types (now : Time) (obj : O) (c : Call) :
  let before := GetConditions obj in
  let after := GetConditions (call now obj c) in
  (marked_type c ∈ map Type_ before ->
     map Type_ after ≡ₚ map Type_ before /\ length after = length before) /\
  (marked_type c ∉ map Type_ before ->
     map Type_ after ≡ₚ map Type_ before ++ [marked_type c] /\
     length after = S (length before)).
Proof.
  intros before after. subst after.
  destruct (call_as_set now obj c) as (s & r & m & ->). fold before.
  pose proof (set_types now before (marked_type c) s r m) as Hp.
  pose proof (entry_Some_iff before (marked_type c)) as He.
  destruct (entry before (marked_type c)) as [x|].
  - split; [intros _|intros Hn; destruct Hn; apply He; eauto].
    split; [assumption|]. apply Permutation_length in Hp.
    now rewrite !length_map in Hp.
  - split; [intros Hin; apply He in Hin; destruct Hin; discriminate|intros _].
    split; [assumption|]. apply Permutation_length in Hp.
    rewrite length_app, !length_map in Hp. simpl in Hp. lia.
Qed.

(** X6.  After a history of calls a Type has an entry exactly when it had
    one at the start or some call of the history wrote it ([SyncReady]
    writes [Ready]). *)
Theorem calls_types (history : list (Time * Call)) (obj : O) (t : CType) :
  t ∈ map Type_ (GetConditions (calls history obj)) <->
  t ∈ map Type_ (GetConditions obj) \/
  t ∈ map (fun nc => marked_type (snd nc)) history.
Proof.
  unfold calls. revert obj.
  induction history as [|[now c] history IH]; intros obj; simpl.
  - split; [auto|]. intros [Hin|Hin]; [assumption|inversion Hin].
  - rewrite IH. rewrite elem_of_cons.
    assert (t ∈ map Type_ (GetConditions (call now obj c)) <->
            t ∈ map Type_ (GetConditions obj) \/ t = marked_type c) as Hstep.
    { destruct (call_as_set now obj c) as (s & r & m & ->).
      rewrite (set_types now (GetConditions obj) (marked_type c) s r m).
      pose proof (entry_Some_iff (GetConditions obj) (marked_type c)) as He.
      destruct (entry (GetConditions obj) (marked_type c)) as [x|].
      - split; [auto|]. intros [Hin| ->]; [assumption|]. apply He. eauto.
      - rewrite elem_of_app, list_elem_of_singleton. tauto. }
    rewrite Hstep. tauto.
Qed.

(** X7.  Whatever the set read, the set a call writes is sorted: no entry
    is [lexicographicLess] than an entry before it, every [Ready] entry
    stands before every entry of another Type, and the Types of the entries
    that are not [Ready] never descend. *)
Theorem call_sorts_any_set (now : Time) (obj : O) (c : Call) :
  forall i j a b, i < j ->
    GetConditions (call now obj c) !! i = Some a ->
    GetConditions (call now obj c) !! j = Some b ->
    lexicographicLess b a = false /\
    (Type_ b = Ready -> Type_ a = Ready) /\
    (Type_ a <> Ready -> Type_ b <> Ready /\ String.ltb (Type_ b) (Type_ a) = false).
Proof.
  intros i j a b Hij Ha Hb.
  assert (lexicographicLess b a = false) as Hless.
  { destruct (call_as_set now obj c) as (s & r & m & Heq). rewrite Heq in Ha, Hb.
    exact (StronglySorted_lookup _ _ (sortConditions_sorted _) i j a b Hij Ha Hb). }
  assert (Type_ b = Ready -> Type_ a = Ready) as Hready.
  { intros Hbr. destruct (String.eqb_spec (Type_ a) Ready) as [|Har]; [assumption|].
    rewrite (less_Ready_l b a Hbr Har) in Hless. discriminate. }
  split; [assumption|]. split; [assumption|].
  intros Har. assert (Type_ b <> Ready) as Hbr by (intros Hbr; now apply Har, Hready).
  split; [assumption|]. now rewrite <- less_other.
Qed.

(** X8.  Marks of two different Types commute: on a set with no duplicate
    Types, two [MarkTrue] / [MarkFalse] / [MarkUnknown] calls on different
    Types, each with its own clock reading, leave the same set in either
    order. *)
Theorem marks_commute (now1 now2 : Time) (obj : O) (c1 c2 : Call) :
  is_Some (mark_args c1) -> is_Some (mark_args c2) ->
  marked_type c1 <> marked_type c2 ->
  NoDup (map Type_ (GetConditions obj)) ->
  GetConditions (call now1 (call now2 obj c2) c1) =
  GetConditions (call now2 (call now1 obj c1) c2).
Proof.
  intros [[[s1 r1] m1] H1] [[[s2 r2] m2] H2] Hne Hnd.
  rewrite (call_mark now1 _ c1 s1 r1 m1 H1), (call_mark now2 obj c2 s2 r2 m2 H2).
  rewrite (call_mark now2 _ c2 s2 r2 m2 H2), (call_mark now1 obj c1 s1 r1 m1 H1).
  now apply set_commute.
Qed.

(** X9.  [SyncReady] follows the change-detection rule of [set] for the
    [Ready] entry: in a set with at most one [Ready] entry its
    [LastTransitionTime] becomes the current time if the reason copied from
    the first [False] entry (the empty reason when there is none) differs
    from the stored reason of [Ready], and stays otherwise, also when the
    status of [Ready] flips. *)
Theorem SyncReady_LastTransitionTime (now : Time) (obj : O) :
  unique_type Ready (GetConditions obj) ->
  transition_rule now (GetConditions obj) (GetConditions (SyncReady now obj))
    Ready (aggregate_reason (GetConditions obj)).
Proof.
  intros Hu. unfold SyncReady, aggregate_reason.
  destruct (firstFalse (GetConditions obj)) as [[r m]|];
    rewrite Get_SetConditions; now apply set_transition_rule.
Qed.

End with_sorter.

(** X10.  On a set with no duplicate Types the helpers compute the same
    sets whatever algorithm [sort.Slice] runs, as long as it meets the
    contract of [sort.Slice]: any history of calls gives the same accessor
    state with one sorter as with another. *)
Theorem calls_any_sorter (S1 S2 : sort.Sorter) {O : Type} `{!ConditionsAccessor O}
    (history : list (Time * Call)) (obj : O) :
  NoDup (map Type_ (GetConditions obj)) ->
  @calls S1 O _ history obj = @calls S2 O _ history obj.
Proof.
  unfold calls. revert obj.
  induction history as [|[now c] history IH]; intros obj Hnd; simpl; [reflexivity|].
  assert (@call S1 O _ now obj c = @call S2 O _ now obj c) as Hstep.
  { destruct c; simpl; unfold MarkTrue, MarkFalse, MarkUnknown, SyncReady;
      try destruct (firstFalse _) as [[r m]|];
      now rewrite (set_any_sorter S1 S2) by assumption. }
  rewrite Hstep. apply IH. now apply (@call_well_formed S2).
Qed.

End more_props.

(* ====================================================================== *)
(** ** Histories of calls over the store *)
(* ====================================================================== *)

Module store_props.
Import conditions props runtime runtime_facts.

Section machine.
Context `{!sort.Sorter} `{!Allocator}.

(** A call, and a history of calls, of the store-level helpers. *)
Definition call_io (now : Time) (c : Call) : M unit :=
  match c with
  | CallMarkTrue t => MarkTrue_io now t
  | CallMarkFalse t reason msg => MarkFalse_io now t reason msg
  | CallMarkUnknown t reason msg => MarkUnknown_io now t reason msg
  | CallSyncReady => SyncReady_io now
  end.

Fixpoint calls_io (history : list (Time * Call)) : M unit :=
  match history with
  | [] => mret tt
  | (now, c) :: rest => call_io now c;; calls_io rest
  end.

(** What [body] must do for [write_back body] to write [f old]. *)
Definition computes (body : slice -> M slice) (f : list Condition -> list Condition) : Prop :=
  forall base w1 s, owned base w1 s ->
    runs base (body s) w1 (fun s' w' =>
      owned base w' s' /\ contents w' s' = f (contents w1 s) /\ s' <> nil_slice).

(** The slice [write_back] hands to the accessor is valid in the store it
    leaves. *)
Lemma write_back_valid (body : slice -> M slice)
    (f : list Condition -> list Condition) (w : world) :
  computes body f ->
  match write_back body w with
  | (_, w', _) => valid w' (held w')
  end.
Proof.
  intros Hbody. set (base := length (arrays w)).
  pose proof (append_to_nil_spec base (held w) w (le_n _)) as H1.
  unfold runs in H1.
  destruct (append_to_nil (held w) w) as [[s1 w1] t1] eqn:E1.
  destruct H1 as (_ & _ & Ho1 & _).
  pose proof (Hbody base w1 s1 Ho1) as H2. unfold runs in H2.
  destruct (body s1 w1) as [[s2 w2] t2] eqn:E2.
  destruct H2 as (_ & _ & Ho2 & _ & _).
  assert (write_back body w =
          (tt, apply_event (EvSetConditions s2) w2,
           [EvGetConditions] ++ t1 ++ t2 ++ [EvSetConditions s2])) as Erun.
  { unfold write_back.
    apply (bind_run _ _ w w _ (held w)); [reflexivity|].
    apply (bind_run _ _ w w1 _ s1); [exact E1|].
    apply (bind_run _ _ w1 w2 _ s2); [exact E2|reflexivity]. }
  rewrite Erun. simpl. destruct s2 as [|a n]; [exact I|].
  destruct Ho2 as (_ & _ & cells & Hcells & Hn). split.
  - eapply lookup_lt_Some, Hcells.
  - unfold cells_at. simpl. now rewrite Hcells.
Qed.

(** Every helper is [write_back] of a body that computes what the
    value-level helper computes. *)
Lemma call_io_write_back (now : Time) (c : Call) (w : world) :
  exists body,
    call_io now c w = write_back body w /\
    computes body (fun old => conds (call now (mkStub old) c)).
Proof.
  destruct c as [t|t reason msg|t reason msg|]; simpl.
  - exists (fun conds => set_io now conds t True_ "" ""). split; [reflexivity|].
    intros base w1 s Ho. now apply set_io_spec.
  - exists (fun conds => set_io now conds t False_ reason msg). split; [reflexivity|].
    intros base w1 s Ho. now apply set_io_spec.
  - exists (fun conds => set_io now conds t Unknown reason msg). split; [reflexivity|].
    intros base w1 s Ho. now apply set_io_spec.
  - exists (fun conds : slice =>
         found ← inspect (fun w => firstFalse (contents w conds));
         match found with
         | Some (falseReason, falseMessage) =>
             set_io now conds Ready False_ falseReason falseMessage
         | None => set_io now conds Ready True_ "" ""
         end).
    split.
    + unfold SyncReady_io, write_back, mbind, M_bind, inspect.
      destruct (GetConditions_io w) as [[got w0] t0].
      destruct (append_to_nil got w0) as [[s1 w1] t1].
      destruct (firstFalse (contents w1 s1)) as [[r m]|].
      * destruct (set_io now s1 Ready False_ r m w1) as [[s2 w2] t2].
        now destruct (SetConditions_io s2 w2) as [[u w3] t3].
      * destruct (set_io now s1 Ready True_ "" "" w1) as [[s2 w2] t2].
        now destruct (SetConditions_io s2 w2) as [[u w3] t3].
    + intros base w1 s Ho. apply runs_bind, runs_inspect.
      unfold SyncReady. simpl.
      destruct (firstFalse (contents w1 s)) as [[r m]|]; now apply set_io_spec.
Qed.

(** One call from a valid store. *)
Lemma call_io_step (now : Time) (c : Call) (w : world) :
  valid w (held w) ->
  match call_io now c w with
  | (_, w', tr) =>
      valid w' (held w') /\
      length (arrays w) <= length (arrays w') /\
      (forall a, a < length (arrays w) -> arrays w' !! a = arrays w !! a) /\
      visible w' = conds (call now (mkStub (visible w)) c) /\
      w' = replay tr w /\
      length (List.filter is_Get tr) = 1 /\
      length (List.filter is_Set tr) = 1
  end.
Proof.
  intros Hv. destruct (call_io_write_back now c w) as (body & -> & Hbody).
  pose proof (write_back_valid body _ w Hbody) as Hvalid.
  pose proof (write_back_copy_on_write body _ w Hv Hbody) as Hcow.
  unfold copy_on_write in Hcow.
  destruct (write_back body w) as [[u w'] tr].
  destruct Hcow as (mid & s' & Htr & Hmid & Hget & Hset & Hrep & Hframe & _ & _ & Hvis & _).
  repeat (split; [assumption|]).
  split; [|auto].
  destruct (private_frame _ mid w (le_n _) Hmid) as (_ & Hlen & _).
  rewrite Hrep, Htr.
  change (length (arrays w) <= length (arrays (replay (mid ++ [EvSetConditions s']) w))).
  now rewrite replay_app.
Qed.

(** X11.  [SyncReady] keeps the copy-on-write discipline of the marks.
    From a store in which the accessor holds a valid slice it calls
    [GetConditions] once, then stores only into arrays it allocated itself,
    then calls [SetConditions] once, last, with a slice in a new array that
    holds the set the value-level [SyncReady] computes; until then the
    accessor shows the old set. *)
Theorem SyncReady_io_copy_on_write (now : Time) (w : world) :
  valid w (held w) ->
  copy_on_write (SyncReady_io now)
    (fun old => conds (SyncReady now (mkStub old))) w.
Proof.
  intros Hv.
  destruct (call_io_write_back now CallSyncReady w) as (body & Heq & Hbody).
  simpl in Heq. unfold copy_on_write. rewrite Heq.
  exact (write_back_copy_on_write body _ w Hv Hbody).
Qed.

(** X12.  Histories over the store.  From a store in which the accessor
    holds a valid slice, after any history of helper calls the accessor
    again holds a valid slice, the set it shows is the set the value-level
    helpers compute from the set shown at the start, no array that existed
    at the start has changed, so the slice read from the accessor before the
    history still holds the old set, and the history made one
    [GetConditions] and one [SetConditions] call per helper call. *)
Theorem calls_io_refine (history : list (Time * Call)) :
  forall w, valid w (held w) ->
    match calls_io history w with
    | (_, w', tr) =>
        valid w' (held w') /\
        visible w' = conds (calls history (mkStub (visible w))) /\
        (forall a, a < length (arrays w) -> arrays w' !! a = arrays w !! a) /\
        contents w' (held w) = visible w /\
        w' = replay tr w /\
        length (List.filter is_Get tr) = length history /\
        length (List.filter is_Set tr) = length history
    end.
Proof.
  assert (forall w w', valid w (held w) ->
            (forall a, a < length (arrays w) -> arrays w' !! a = arrays w !! a) ->
            contents w' (held w) = visible w) as Hsnap.
  { intros w w' Hv Hf. unfold visible. destruct (held w) as [|a n]; [reflexivity|].
    destruct Hv as [Hlt _]. unfold contents, cells_at. now rewrite Hf. }
  assert (forall history w, valid w (held w) ->
    match calls_io history w with
    | (_, w', tr) =>
        valid w' (held w') /\
        visible w' = conds (calls history (mkStub (visible w))) /\
        (forall a, a < length (arrays w) -> arrays w' !! a = arrays w !! a) /\
        length (arrays w) <= length (arrays w') /\
        w' = replay tr w /\
        length (List.filter is_Get tr) = length history /\
        length (List.filter is_Set tr) = length history
    end) as Hmain.
  { clear history. induction history as [|[now c] history IH]; intros w Hv.
    - simpl. unfold calls. simpl. repeat split; auto.
    - pose proof (call_io_step now c w Hv) as Hstep.
      destruct (call_io now c w) as [[u w1] t1] eqn:E1.
      destruct Hstep as (Hv1 & Hlen1 & Hf1 & Hvis1 & Hrep1 & Hget1 & Hset1).
      specialize (IH w1 Hv1).
      destruct (calls_io history w1) as [[u2 w2] t2] eqn:E2.
      destruct IH as (Hv2 & Hvis2 & Hf2 & Hlen2 & Hrep2 & Hget2 & Hset2).
      assert (calls_io ((now, c) :: history) w = (u2, w2, t1 ++ t2)) as ->.
      { simpl. apply (bind_run _ _ w w1 w2 u); assumption. }
      split; [assumption|].
      split.
      { rewrite Hvis2, Hvis1. unfold calls. simpl. now destruct (call now _ c). }
      split; [intros a Ha; rewrite Hf2 by lia; now apply Hf1|].
      split; [lia|].
      split; [rewrite replay_app; congruence|].
      rewrite !List.filter_app, !length_app. simpl. lia. }
  intros w Hv. specialize (Hmain history w Hv).
  destruct (calls_io history w) as [[u w'] tr].
  destruct Hmain as (Hv' & Hvis & Hf & _ & Hrep & Hget & Hset).
  repeat (split; [assumption|]). split; [now apply Hsnap|]. auto.
Qed.

End machine.

End store_props.

(* ====================================================================== *)
(** ** The further properties at concrete sets *)
(* ====================================================================== *)

Module more_examples.
Import conditions props sort_facts api_props invariants more_props.
Import runtime runtime_facts store_props.
Local Open Scope Z_scope.

(** A second implementation of [sort.Slice]: insertion sort of the slice
    read backwards.  It meets the contract and orders entries of one Type
    the other way round. *)
Definition backwards_sorter : sort.Sorter := {|
  sort.Slice := fun A less l => sort.insertionSort less (rev l);
  sort.Slice_permutation := fun A less l =>
    Permutation_trans (Permutation_rev l) (insertionSort_permutation less (rev l));
  sort.Slice_sorted := fun A less Hswo l => insertionSort_sorted less Hswo (rev l)
|}.

Definition api_db : stub :=
  mkStub [mkCondition "API" True_ "" "" 1;
          mkCondition "Database" False_ "DBDown" "database unreachable" 2].

(** [Ready] is [True]; "Database" went [False] with an empty reason. *)
Definition ready_then_down : stub :=
  mkStub [mkCondition Ready True_ "" "" 1;
          mkCondition "Database" False_ "" "down" 2].

(** The status of [Ready] flips, its reason stays empty, and so its
    [LastTransitionTime] stays 1 at clock reading 5. *)
Example SyncReady_flip_keeps_time :
  entry (conds (SyncReady 5 ready_then_down)) Ready =
  Some (mkCondition Ready False_ "" "down" 1).
Proof. reflexivity. Qed.

Lemma Mark_then_lookup_witness :
  IsTrue (MarkFalse 3 api_db "API" "APIDown" "no answer") "API" = false.
Proof.
  refine (proj1 (proj2 (proj2 (proj2 (proj2
    (Mark_then_lookup 3 api_db "API" "APIDown" "no answer" _)))))).
  vm_compute. lia.
Defined.

Lemma calls_keep_other_lookups_witness :
  entry (GetConditions (call 3 api_db (CallMarkTrue "Database"))) "API" =
    entry (GetConditions api_db) "API" /\
  IsTrue (call 3 api_db (CallMarkTrue "Database")) "API" = IsTrue api_db "API".
Proof.
  apply (calls_keep_other_lookups 3 api_db (CallMarkTrue "Database") "API").
  - simpl. discriminate.
  - vm_compute. lia.
Defined.

Lemma SyncReady_then_IsTrue_witness :
  (IsTrue (SyncReady 3 api_db) Ready = true <->
   forall c, c ∈ GetConditions api_db -> Type_ c <> Ready -> Status c <> False_) /\
  (GetConditions api_db = [] -> IsTrue (SyncReady 3 api_db) Ready = true).
Proof.
  apply (SyncReady_then_IsTrue 3 api_db). vm_compute. lia.
Defined.

Lemma marks_commute_witness :
  GetConditions (call 4 (call 3 api_db (CallMarkFalse "API" "APIDown" "no answer"))
                   (CallMarkTrue "Database")) =
  GetConditions (call 3 (call 4 api_db (CallMarkTrue "Database"))
                   (CallMarkFalse "API" "APIDown" "no answer")).
Proof.
  apply (marks_commute 4 3 api_db (CallMarkTrue "Database")
           (CallMarkFalse "API" "APIDown" "no answer")).
  - simpl. eauto.
  - simpl. eauto.
  - simpl. discriminate.
  - apply (bool_decide_unpack _). vm_compute. exact I.
Defined.

Lemma SyncReady_LastTransitionTime_witness :
  transition_rule 5 (GetConditions ready_then_down)
    (GetConditions (SyncReady 5 ready_then_down)) Ready
    (aggregate_reason (GetConditions ready_then_down)).
Proof.
  apply (SyncReady_LastTransitionTime 5 ready_then_down). vm_compute. lia.
Defined.

Lemma calls_any_sorter_witness :
  @calls insertion_sorter stub _ examples.history_ABC api_db =
  @calls backwards_sorter stub _ examples.history_ABC api_db.
Proof.
  apply (calls_any_sorter insertion_sorter backwards_sorter examples.history_ABC api_db).
  apply (bool_decide_unpack _). vm_compute. exact I.
Defined.

Lemma SyncReady_io_copy_on_write_witness :
  copy_on_write (SyncReady_io 4)
    (fun old => conds (SyncReady 4 (mkStub old))) examples.store_AB.
Proof.
  apply (SyncReady_io_copy_on_write 4 examples.store_AB). vm_compute. lia.
Defined.

Lemma calls_io_refine_witness :
  match calls_io examples.history_ABC examples.store_AB with
  | (_, w', tr) =>
      valid w' (held w') /\
      visible w' = conds (calls examples.history_ABC (mkStub (visible examples.store_AB))) /\
      (forall a, (a < length (arrays examples.store_AB))%nat ->
         arrays w' !! a = arrays examples.store_AB !! a) /\
      contents w' (held examples.store_AB) = visible examples.store_AB /\
      w' = replay tr examples.store_AB /\
      length (List.filter is_Get tr) = length examples.history_ABC /\
      length (List.filter is_Set tr) = length examples.history_ABC
  end.
Proof.
  apply (calls_io_refine examples.history_ABC examples.store_AB). vm_compute. lia.
Defined.

(** From an unsorted set: the set written is [A; M; Z]. *)
Lemma call_sorts_any_set_witness :
  let a := mkCondition "A" False_ "r2" "m2" 0 in
  let b := mkCondition "Z" False_ "r1" "m1" 0 in
  lexicographicLess b a = false /\
  (Type_ b = Ready -> Type_ a = Ready) /\
  (Type_ a <> Ready -> Type_ b <> Ready /\ String.ltb (Type_ b) (Type_ a) = false).
Proof.
  apply (call_sorts_any_set 1 examples.unsorted_two_False (CallMarkTrue "M") 0%nat 2%nat);
    [lia|reflexivity|reflexivity].
Defined.

End more_examples.
